(** * Light-client header synchronisation: the LES test server, the
      trinity entry point, and the header store / sync engine they drive.

    The development follows the Python sources:
    - [trinity/main.py]               (module [Trinity]);
    - [tests/p2p/test_lightchain.py]  (module [LES]: [LESProtocolServer],
      [LESPeerServer], [assert_canonical_chains_are_equal]).

    Python integers are unbounded, so they are [Z].  A Python function that
    may raise is a function into [Res], an error monad whose errors are the
    exceptions the code can raise. *)

From Stdlib Require Import ZArith List Bool Lia String.
From stdpp Require Import base tactics option list numbers strings gmap.

Local Open Scope Z_scope.

(** ** Python-level preliminaries *)

(** The exceptions of the code modelled: the two built-in ones the handler
    can raise, and the lookup and write failures of the header store. *)
Inductive PyExn : Type :=
| AssertionError
| AttributeError (attr : string)
| HeaderNotFound
| ParentNotFound.

(** The result of a call: a value, or the exception that escapes. *)
Inductive Res (A : Type) : Type :=
| Ok (a : A)
| Raise (e : PyExn).
Arguments Ok {A} a.
Arguments Raise {A} e.

#[global] Instance Res_ret : MRet Res := fun _ a => Ok a.
#[global] Instance Res_bind : MBind Res :=
  fun _ _ f r => match r with Ok a => f a | Raise e => Raise e end.

(** [tuple(f(i) for i in xs)]: evaluates left to right, the first exception
    escapes. *)
Fixpoint tuple_of {A B : Type} (f : A -> Res B) (xs : list A) : Res (list B) :=
  match xs with
  | [] => Ok []
  | x :: xs' => y ← f x; ys ← tuple_of f xs'; mret (y :: ys)
  end.

(** [range(a, b)] on integers: [a, a+1, ..., b-1], empty when [b <= a]. *)
Definition py_range (a b : Z) : list Z :=
  map (fun i : nat => a + Z.of_nat i) (seq 0 (Z.to_nat (b - a))).

(** ** trinity/main.py *)
Module Trinity.

Section Main.
(** [trinity.constants] is not part of the sources at hand: the two
    constants [main] reads are parameters. *)
Context {ChainId SyncMode : Type}.
Variable ROPSTEN : ChainId.
Variable SYNC_LIGHT : SyncMode.

(** The fields of the [argparse] namespace that [main] reads. *)
Record Args : Type := {
  ropsten : bool;
  light : bool;
  log_level : string;
  subcommand : option string;
  vanilla_shell : bool
}.

(** [if args.ropsten: chain_identifier = ROPSTEN else: ...]. *)
Definition chain_identifier (args : Args) : ChainId :=
  if ropsten args then ROPSTEN
  else (* TODO: mainnet *) ROPSTEN.

(** [if args.light: sync_mode = SYNC_LIGHT else: ...]. *)
Definition sync_mode (args : Args) : SyncMode :=
  if light args then SYNC_LIGHT
  else (* TODO: actually use args.sync_mode *) SYNC_LIGHT.

(** The pair [main] hands to [ChainConfig.from_parser_args] and to
    [get_chain_protocol_class] / [run_chain]. *)
Definition main_selection (args : Args) : ChainId * SyncMode :=
  (chain_identifier args, sync_mode args).
End Main.

End Trinity.

(** ** Headers *)

(** Modelled from the spec: a block hash; [evm.rlp.headers] is not among
    the sources.  A digest is a byte string, kept here as a list of
    integers. *)
Definition Hash : Type := list Z.

(** Modelled from the spec: [evm.rlp.headers.BlockHeader] is not among the
    sources; these are the fields the spec lists and the tests read.  The
    hash is derived from the content ([header.hash] is a property), so it
    is a function of the record and not a field: the parameter [hash_of] of
    everything below. *)
Record BlockHeader : Type := {
  parent_hash : Hash;
  block_number : Z;
  difficulty : Z;
  timestamp : Z;
  coinbase : Z;
  gas_limit : Z
}.

#[global] Instance BlockHeader_eq_dec : EqDecision BlockHeader.
Proof. solve_decision. Defined.

(** Modelled from the spec: the block number of the genesis header
    ([evm.constants] is not among the sources). *)
Definition GENESIS_BLOCK_NUMBER : Z := 0.

(** ** tests/p2p/test_lightchain.py: the LES test server *)
Module LES.

(** Modelled from the spec: the anchor of a query ([p2p.les] is not among
    the sources): a block number or a block hash. *)
Inductive BlockNumberOrHash : Type :=
| Number (n : Z)
| BlockHash (h : Hash).

(** Modelled from the spec: the query structure of [p2p.les], which is not
    among the sources; the spec gives it as
    [{block_number_or_hash, max_headers, skip, reverse}]. *)
Record HeaderRequest : Type := {
  block_number_or_hash : BlockNumberOrHash;
  max_headers : Z;
  skip : Z;
  reverse : bool
}.

(** Values an attribute of the query can hold. *)
Inductive PyVal : Type :=
| VInt (n : Z)
| VBytes (h : Hash)
| VBool (b : bool).

(** [query.<name>]: the four fields above are the only attributes; any
    other name raises [AttributeError]. *)
Definition getattr (query : HeaderRequest) (name : string) : Res PyVal :=
  if String.eqb name "block_number_or_hash" then
    Ok (match block_number_or_hash query with
        | Number n => VInt n
        | BlockHash h => VBytes h
        end)
  else if String.eqb name "max_headers" then Ok (VInt (max_headers query))
  else if String.eqb name "skip" then Ok (VInt (skip query))
  else if String.eqb name "reverse" then Ok (VBool (reverse query))
  else Raise (AttributeError name).

(** An attribute used as an integer operand. *)
Definition getattr_int (query : HeaderRequest) (name : string) : Res Z :=
  v ← getattr query name;
  match v with
  | VInt n => Ok n
  | _ => Raise (AttributeError name)
  end.

(** The decoded [msg] of a [GetBlockHeaders] command, as the handler reads
    it: [msg['request_id']] and [msg['query']]. *)
Record GetBlockHeadersMsg : Type := {
  gbh_request_id : Z;
  gbh_query : HeaderRequest
}.

(** The [data] that [send_block_headers] encodes into a [BlockHeaders]
    command. *)
Record BlockHeadersMsg : Type := {
  request_id : Z;
  headers : list BlockHeader;
  buffer_value : Z
}.

(** The [data] that [LESProtocolServer.send_announce] encodes into an
    [Announce] command. *)
Record AnnounceMsg : Type := {
  head_hash : Hash;
  head_number : Z;
  head_td : Z;
  reorg_depth : Z;
  params : list Z
}.

(** A [GetBlockHeaders] message from its fields. *)
Definition get_block_headers (rid : Z) (anchor : BlockNumberOrHash)
    (maxh skip : Z) (reverse : bool) : GetBlockHeadersMsg :=
  {| gbh_request_id := rid;
     gbh_query := {| block_number_or_hash := anchor;
                     max_headers := maxh;
                     skip := skip;
                     reverse := reverse |} |}.

(** The header database a peer holds, through the operations the server
    uses.  [evm.db.chain] is not among the sources, so the database is an
    interface; the header store below is its instance. *)
Class HeaderDB (DB : Type) : Type := {
  get_canonical_head : DB -> Res BlockHeader;
  get_canonical_block_header_by_number : DB -> Z -> Res BlockHeader;
  get_block_header_by_hash : DB -> Hash -> Res BlockHeader;
  get_score : DB -> Hash -> Res Z
}.

Section Server.
Context {DB : Type} `{HeaderDB DB}.
Variable hash_of : BlockHeader -> Hash.

(** [LESPeerServer]: the state the handler reads. *)
Record LESPeerServer : Type := {
  headerdb : DB;
  _head_number : option Z
}.

(** The class attribute [max_headers_fetch]. *)
Definition max_headers_fetch : Z := 20.

(** [LESProtocolServer.send_block_headers]: the message handed to
    [BlockHeaders.encode] and sent. *)
Definition send_block_headers (hs : list BlockHeader) (buffer : Z) (rid : Z)
  : BlockHeadersMsg :=
  {| request_id := rid; headers := hs; buffer_value := buffer |}.

(** [LESProtocolServer.send_announce]. *)
Definition proto_send_announce (block_hash : Hash) (number td depth : Z)
  : AnnounceMsg :=
  {| head_hash := block_hash; head_number := number; head_td := td;
     reorg_depth := depth; params := [] |}.

(** The [head_number] property. *)
Definition server_head_number (self : LESPeerServer) : Res Z :=
  match _head_number self with
  | Some n => Ok n
  | None => h ← get_canonical_head (headerdb self); mret (block_number h)
  end.

(** [if head_number is not None: self._head_number = head_number]. *)
Definition set_head_number (self : LESPeerServer) (hn : option Z)
  : LESPeerServer :=
  match hn with
  | Some n => {| headerdb := headerdb self; _head_number := Some n |}
  | None => self
  end.

(** [LESPeerServer.send_announce]: the new server state ([_head_number] is
  assigned before anything can raise) and the message sent. *)
Definition send_announce (self : LESPeerServer) (hn : option Z) (depth : Z)
  : LESPeerServer * Res AnnounceMsg :=
  let self' := set_head_number self hn in
  (self',
   n ← server_head_number self';
   header ← get_canonical_block_header_by_number (headerdb self') n;
   total_difficulty ← get_score (headerdb self') (hash_of header);
   mret (proto_send_announce (hash_of header) (block_number header)
           total_difficulty depth)).

(** The [block_numbers] of [handle_get_block_headers]: the two branches on
    [query.reverse]. *)
Definition requested_block_numbers (self : LESPeerServer)
    (query : HeaderRequest) (number : Z) : Res (list Z) :=
  if reverse query then
    qblock ← getattr_int query "block";
    let start := Z.max 0 (qblock - max_headers query) in
    mret (rev (py_range (start + 1) (number + 1)))
  else
    hn ← server_head_number self;
    let end_ := Z.min (hn + 1) (number + max_headers query) in
    mret (py_range number end_).

(** [LESPeerServer.handle_get_block_headers]: the reply sent, or the
  exception raised. *)
Definition handle_get_block_headers (self : LESPeerServer)
    (msg : GetBlockHeadersMsg) : Res BlockHeadersMsg :=
  let query := gbh_query msg in
  number ← match block_number_or_hash query with
           | Number n => Ok n
           | BlockHash _ => Raise AssertionError
           end;
  block_numbers ← requested_block_numbers self query number;
  hs ← tuple_of (get_canonical_block_header_by_number (headerdb self))
                block_numbers;
  mret (send_block_headers hs 0 (gbh_request_id msg)).

(** [assert_canonical_chains_are_equal(headerdb1, headerdb2, block_number)]
    with an explicit [block_number]: every lookup succeeds and the two
    headers are equal. *)
Definition canonical_chains_are_equal (db1 db2 : DB) (number : Z) : Prop :=
  forall i, 0 <= i <= number ->
    exists h, get_canonical_block_header_by_number db1 i = Ok h /\
              get_canonical_block_header_by_number db2 i = Ok h.
End Server.

End LES.

(** ** The Header Store *)
Module Store.

Section HeaderStore.
Variable hash_of : BlockHeader -> Hash.

(** Modelled from the spec: the header store ([evm.db.chain], an external
    collaborator of the sync code) is not among the sources.  The spec
    gives its interface: get-canonical-head, get-header-by-number,
    get-header-by-hash, get-chain-score(hash) and persist-header(s), which
    "atomically extends/replaces the canonical chain, recomputing
    canonical status by cumulative score"; a header whose hash is already
    present is skipped.  The representation is an index from hash to the
    header and the score of the chain ending at it, and the canonical
    chain as the list of its hashes, position [n] holding block [n]. *)
Record HeaderStore : Type := {
  entries : gmap Hash (BlockHeader * Z);
  canonical : list Hash
}.

(** Modelled from the spec: a header database with nothing persisted. *)
Definition empty_store : HeaderStore :=
  {| entries := ∅; canonical := [] |}.

(** Modelled from the spec: is a header of this hash present. *)
Definition header_exists (s : HeaderStore) (k : Hash) : bool :=
  bool_decide (is_Some (entries s !! k)).

(** Modelled from the spec: the hash of the canonical header numbered
    [n]. *)
Definition canonical_hash (s : HeaderStore) (n : Z) : option Hash :=
  if n <? 0 then None else canonical s !! Z.to_nat n.

(** Modelled from the spec: get-header-by-hash of the header store. *)
Definition store_get_block_header_by_hash (s : HeaderStore) (k : Hash)
  : Res BlockHeader :=
  match entries s !! k with
  | Some (h, _) => Ok h
  | None => Raise HeaderNotFound
  end.

(** Modelled from the spec: get-chain-score(hash) of the header store. *)
Definition store_get_score (s : HeaderStore) (k : Hash) : Res Z :=
  match entries s !! k with
  | Some (_, score) => Ok score
  | None => Raise HeaderNotFound
  end.

(** Modelled from the spec: get-header-by-number of the header store. *)
Definition store_get_canonical_block_header_by_number (s : HeaderStore)
    (n : Z) : Res BlockHeader :=
  match canonical_hash s n with
  | Some k => store_get_block_header_by_hash s k
  | None => Raise HeaderNotFound
  end.

(** Modelled from the spec: get-canonical-head of the header store. *)
Definition store_get_canonical_head (s : HeaderStore) : Res BlockHeader :=
  match last (canonical s) with
  | Some k => store_get_block_header_by_hash s k
  | None => Raise HeaderNotFound
  end.

(** Modelled from the spec: how the store recomputes the canonical chain
    is internal to [evm.db.chain], which is not among the sources.  The
    chain that ends at [h]: walking down from [h], the first ancestor that
    is the canonical header at its number is the fork point; the result
    is the canonical chain up to the fork point followed by the branch
    from there to [h]. *)
Fixpoint chain_through (fuel : nat) (s : HeaderStore) (h : BlockHeader)
  : list Hash :=
  match fuel with
  | O => []
  | S fuel' =>
      if decide (canonical_hash s (block_number h) = Some (hash_of h))
      then take (S (Z.to_nat (block_number h))) (canonical s)
      else match entries s !! parent_hash h with
           | Some (p, _) => chain_through fuel' s p
           | None => []
           end ++ [hash_of h]
  end.

(** Modelled from the spec: persist-header extends or replaces the
    canonical chain ([evm.db.chain] is not among the sources).  Make [h]
    the canonical head: the canonical chain above the fork point
    is replaced by the branch that ends at [h]. *)
Definition set_as_canonical_chain_head (s : HeaderStore) (h : BlockHeader)
  : HeaderStore :=
  {| entries := entries s;
     canonical := chain_through (S (Z.to_nat (block_number h))) s h |}.

(** Modelled from the spec: the score of the chain that ends at the
    canonical head. *)
Definition head_score (s : HeaderStore) : Res Z :=
  match last (canonical s) with
  | Some k => store_get_score s k
  | None => Raise HeaderNotFound
  end.

(** Modelled from the spec: persist-header of the header store
    ([evm.db.chain], not among the sources).  A header already present
    (same hash) is skipped; the
    first header of an empty store is its genesis; otherwise the parent
    must be present, the score is the parent's plus the header's
    difficulty, and the header becomes the canonical head when its score
    is higher than the current head's. *)
Definition persist_header (s : HeaderStore) (h : BlockHeader)
  : Res HeaderStore :=
  if header_exists s (hash_of h) then Ok s
  else match canonical s with
  | [] => Ok {| entries := <[hash_of h := (h, difficulty h)]> (entries s);
                canonical := [hash_of h] |}
  | _ :: _ =>
      match entries s !! parent_hash h with
      | None => Raise ParentNotFound
      | Some (_, parent_score) =>
          let score := parent_score + difficulty h in
          let s' := {| entries := <[hash_of h := (h, score)]> (entries s);
                       canonical := canonical s |} in
          current ← head_score s;
          if current <? score
          then Ok (set_as_canonical_chain_head s' h)
          else Ok s'
      end
  end.

(** Modelled from the spec: persist-headers of the header store
    ([evm.db.chain], not among the sources): in the order given; atomic,
    so a failure leaves no
    partial result. *)
Fixpoint persist_headers (s : HeaderStore) (hs : list BlockHeader)
  : Res HeaderStore :=
  match hs with
  | [] => Ok s
  | h :: hs' => s' ← persist_header s h; persist_headers s' hs'
  end.

#[global] Instance HeaderStore_db : LES.HeaderDB HeaderStore := {|
  LES.get_canonical_head := store_get_canonical_head;
  LES.get_canonical_block_header_by_number :=
    store_get_canonical_block_header_by_number;
  LES.get_block_header_by_hash := store_get_block_header_by_hash;
  LES.get_score := store_get_score
|}.

(** Modelled from the spec: [get_fresh_mainnet_headerdb] (from
    [peer_helpers]) is not among the sources; a fresh header database
    holds the genesis header only. *)
Definition fresh_headerdb (genesis : BlockHeader) : HeaderStore :=
  {| entries := {[ hash_of genesis := (genesis, difficulty genesis) ]};
     canonical := [hash_of genesis] |}.
End HeaderStore.

End Store.

(** ** The Sync Engine *)
Module Sync.

Section Engine.
Variable hash_of : BlockHeader -> Hash.

(** Modelled from the spec: the sync engine ([p2p.lightchain], with the
    request tracking of [p2p.peer]) is not among the sources.  What
    follows is the algorithm of the spec's "Sync Engine" section, run
    sequentially: admission, planning, fetching in batches, validating,
    committing, repeated until the local head number reaches the
    announced one. *)
Record Config : Type := {
  cfg_max_headers_fetch : Z;
  cfg_retry_budget : nat
}.

(** Modelled from the spec: a peer session ([p2p.peer], not among the
    sources) as the engine sees it: the reply to a request, or no reply
    within [reply_timeout]. *)
Definition Peer : Type := LES.GetBlockHeadersMsg -> option LES.BlockHeadersMsg.

(** Modelled from the spec: the state the engine owns: the header store,
    the next request id of the request tracker, and the heads the peers
    advertised (PeerHead). *)
Record EngineState : Type := {
  store : Store.HeaderStore;
  next_request_id : Z;
  peer_heads : list (nat * LES.AnnounceMsg)
}.

(** Modelled from the spec: how a sync task ends: the Announce was not
    admitted, the task committed what it planned, or it was abandoned. *)
Inductive Outcome : Type := Ignored | Committed | Abandoned.

(** The engine state after a commit. *)
Definition with_store (st : EngineState) (s : Store.HeaderStore)
  : EngineState :=
  {| store := s; next_request_id := next_request_id st;
     peer_heads := peer_heads st |}.

(** The block number of the local canonical head. *)
Definition local_head_number (s : Store.HeaderStore) : Res Z :=
  h ← Store.store_get_canonical_head s; mret (block_number h).

(** Modelled from the spec: planning of the sync engine ([p2p.lightchain],
    not among the sources).  The first block number to fetch: the block
    above the local head when [reorg_depth = 0], else [reorg_depth] blocks
    below the local head, clamped to genesis. *)
Definition plan_start (local_number depth : Z) : Z :=
  if 0 <? depth
  then Z.max GENESIS_BLOCK_NUMBER (local_number - depth)
  else local_number + 1.

(** Modelled from the spec: fetching of the sync engine ([p2p.lightchain],
    not among the sources).  The range [start .. target] split into
    batches (anchor, count) of at most [maxh] headers. *)
Fixpoint split_range (fuel : nat) (start target maxh : Z) : list (Z * Z) :=
  match fuel with
  | O => []
  | S fuel' =>
      if target <? start then []
      else let n := Z.min maxh (target - start + 1) in
           (start, n) :: split_range fuel' (start + n) target maxh
  end.

(** Modelled from the spec: the batches planned for an Announce. *)
Definition plan (cfg : Config) (local_number : Z) (a : LES.AnnounceMsg)
  : list (Z * Z) :=
  let start := plan_start local_number (LES.reorg_depth a) in
  split_range (Z.to_nat (LES.head_number a - start + 1)) start
    (LES.head_number a) (cfg_max_headers_fetch cfg).

(** Modelled from the spec: the query of a fetch: [reverse = false],
    [skip = 0]. *)
Definition header_query (anchor count : Z) : LES.HeaderRequest :=
  {| LES.block_number_or_hash := LES.Number anchor;
     LES.max_headers := count; LES.skip := 0; LES.reverse := false |}.

(** Modelled from the spec: the request tracker ([p2p.peer], not among the
    sources).  A request goes out under a fresh id, and a reply resolves
    it only when it carries that id; anything else is dropped. *)
Definition request (peer : Peer) (rid anchor count : Z)
  : option (list BlockHeader) :=
  match peer {| LES.gbh_request_id := rid;
                LES.gbh_query := header_query anchor count |} with
  | Some reply =>
      if LES.request_id reply =? rid then Some (LES.headers reply) else None
  | None => None
  end.

(** Modelled from the spec: validating of the sync engine
    ([p2p.lightchain], not among the sources).  Inside a batch: each
    header is one block above the previous one and names it as parent. *)
Fixpoint linked (prev : BlockHeader) (hs : list BlockHeader) : bool :=
  match hs with
  | [] => true
  | h :: hs' =>
      (block_number h =? block_number prev + 1)
      && bool_decide (parent_hash h = hash_of prev)
      && linked h hs'
  end.

(** Modelled from the spec: validating of the sync engine
    ([p2p.lightchain], not among the sources).  The batch is linked
    inside, and its first header connects it to the store.  For a header
    that the store does not hold, the parent is a header of the store, one
    block below it ("the first header's parent must equal a hash already
    present in the Header Store").  A first header that the store holds is
    one of the overlap that planning fetches for a reorg, "so the received
    sequence overlaps with already-known headers": the batch starts on a
    chain of the store (a batch is never persisted "before its predecessor
    is present (or already canonical)"), and committing skips that header
    ("same hash already present => skip"); at the clamp to genesis it is
    the genesis, which has no parent to look for. *)
Definition validate_batch (s : Store.HeaderStore) (hs : list BlockHeader)
  : bool :=
  match hs with
  | [] => true
  | h :: hs' =>
      (if Store.header_exists s (hash_of h) then true
       else match Store.entries s !! parent_hash h with
            | Some (p, _) => block_number h =? block_number p + 1
            | None => false
            end)
      && linked h hs'
  end.

(** Modelled from the spec: the retry budget of the sync engine
    ([p2p.lightchain], not among the sources).  One batch: fetch and
    validate, retrying up to the budget. *)
Fixpoint fetch_batch (budget : nat) (peer : Peer) (st : EngineState)
    (anchor count : Z) : EngineState * option (list BlockHeader) :=
  let rid := next_request_id st in
  let st' := {| store := store st; next_request_id := rid + 1;
                peer_heads := peer_heads st |} in
  let retry :=
    match budget with
    | O => (st', None)
    | S budget' => fetch_batch budget' peer st' anchor count
    end in
  match request peer rid anchor count with
  | Some hs => if validate_batch (store st) hs then (st', Some hs) else retry
  | None => retry
  end.

(** Modelled from the spec: steps 3 to 6 of the sync engine
    ([p2p.lightchain], not among the sources).  The batches of the
    planned range are fetched, validated and committed one after the
    other, "one outstanding batch per sync task at a time"; the local head
    is read again after each commit, and when it has advanced "further
    than this task's target" the task "ends early, successfully".  When
    the batches are done, the planned range, up to the announced head
    number, has been committed. *)
Fixpoint run_batches (cfg : Config) (peer : Peer) (target : Z)
    (st : EngineState) (batches : list (Z * Z)) : EngineState * Outcome :=
  match batches with
  | [] => (st, Committed)
  | (anchor, count) :: rest =>
      match fetch_batch (cfg_retry_budget cfg) peer st anchor count with
      | (st1, None) => (st1, Abandoned)
      | (st1, Some hs) =>
          match Store.persist_headers hash_of (store st1) hs with
          | Raise _ => (st1, Abandoned)
          | Ok s' =>
              let st2 := with_store st1 s' in
              match local_head_number s' with
              | Raise _ => (st2, Abandoned)
              | Ok n => if target <? n then (st2, Committed)
                        else run_batches cfg peer target st2 rest
              end
          end
      end
  end.

(** Modelled from the spec: the sync engine's reaction to one Announce
    from peer [pid] ([p2p.lightchain], not among the sources): the peer's
    head is recorded, the Announce is ignored unless its total difficulty
    is above the local head's score, and the planned range is fetched. *)
Definition on_announce (cfg : Config) (pid : nat) (peer : Peer)
    (a : LES.AnnounceMsg) (st : EngineState) : EngineState * Outcome :=
  let st0 := {| store := store st; next_request_id := next_request_id st;
                peer_heads := (pid, a) :: peer_heads st |} in
  match Store.head_score (store st), local_head_number (store st) with
  | Ok local_td, Ok local_number =>
      if LES.head_td a <=? local_td then (st0, Ignored)
      else run_batches cfg peer (LES.head_number a) st0
             (plan cfg local_number a)
  | _, _ => (st0, Abandoned)
  end.

(** Modelled from the spec: the engine loop ([LightPeerChain.run], not
    among the sources) over a sequence of announcements. *)
Definition Event : Type := nat * Peer * LES.AnnounceMsg.

(** The engine processes the events in order. *)

Definition run (cfg : Config) (events : list Event) (st : EngineState)
  : EngineState :=
  fold_left (fun st '(pid, peer, a) => fst (on_announce cfg pid peer a st))
    events st.

(** The engine over a fresh header database. *)
Definition initial_state (genesis : BlockHeader) : EngineState :=
  {| store := Store.fresh_headerdb hash_of genesis;
     next_request_id := 0; peer_heads := [] |}.
End Engine.

End Sync.

(** ** The test scenarios of tests/p2p/test_lightchain.py *)
Module Scenario.

Section Tests.
Variable hash_of : BlockHeader -> Hash.
Variable cfg : Sync.Config.

(** The client's session with a [LESPeerServer]: a request is answered by
    [handle_get_block_headers]; a handler that raises sends nothing. *)
Definition server_session (server : LES.LESPeerServer (DB := Store.HeaderStore))
  : Sync.Peer :=
  fun msg =>
    match LES.handle_get_block_headers server msg with
    | Ok reply => Some reply
    | Raise _ => None
    end.

(** Modelled from the spec: [BlockHeader.from_parent] ([evm.rlp.headers])
    is not among the sources; the tests use it for "a competing header at
    the same height": a child of [parent], one block above it, with the
    given fields. *)
Definition from_parent (parent : BlockHeader)
    (gas_limit' difficulty' timestamp' coinbase' : Z) : BlockHeader :=
  {| parent_hash := hash_of parent;
     block_number := block_number parent + 1;
     difficulty := difficulty';
     timestamp := timestamp';
     coinbase := coinbase';
     gas_limit := gas_limit' |}.

(** The fixture [headerdb_mainnet_100], over the decoded headers file. *)
Definition headerdb_mainnet_100 (headers : list BlockHeader)
  : Res Store.HeaderStore :=
  Store.persist_headers hash_of Store.empty_store (take 101 headers).

(** [server.send_announce(head_number, reorg_depth)] followed by the
    client's processing of the Announce it receives. *)
Definition announce_and_sync (server : LES.LESPeerServer) (hn : option Z)
    (depth : Z) (client : Sync.EngineState)
  : Res (LES.LESPeerServer * Sync.EngineState) :=
  let '(server', msg) := LES.send_announce hash_of server hn depth in
  a ← msg;
  mret (server',
        fst (Sync.on_announce hash_of cfg 0 (server_session server') a client)).

(** [test_incremental_header_sync]: the server, the client after the
    first announcement and the client after the second.  Client and server
    start with fresh databases, so the sync on registration has nothing to
    fetch; the server is then given the populated database. *)
Definition test_incremental_header_sync (genesis : BlockHeader)
    (headers : list BlockHeader)
  : Res (LES.LESPeerServer * Sync.EngineState * Sync.EngineState) :=
  db ← headerdb_mainnet_100 headers;
  let server := {| LES.headerdb := db; LES._head_number := None |} in
  '(server1, client1) ←
    announce_and_sync server (Some 10) 0 (Sync.initial_state hash_of genesis);
  '(server2, client2) ← announce_and_sync server1 (Some 100) 0 client1;
  mret (server2, client1, client2).

(** The competing head both reorg tests build. *)
Definition competing_head (db : Store.HeaderStore) : Res BlockHeader :=
  head ← Store.store_get_canonical_head db;
  head_parent ← Store.store_get_block_header_by_hash db (parent_hash head);
  mret (from_parent head_parent (gas_limit head_parent)
          (difficulty head + 1) (timestamp head) (coinbase head)).

(** [test_full_header_sync_and_reorg] over a server database [db]: the new
    head, the server at the end, the client after the full sync and the
    client after the reorg announcement.  The sync on registration is the
    bootstrap from the server's head ([reorg_depth = 0]). *)
Definition test_full_header_sync_and_reorg (genesis : BlockHeader)
    (db : Store.HeaderStore)
  : Res (BlockHeader * LES.LESPeerServer * Sync.EngineState * Sync.EngineState) :=
  let server := {| LES.headerdb := db; LES._head_number := None |} in
  '(server1, client1) ←
    announce_and_sync server None 0 (Sync.initial_state hash_of genesis);
  head ← Store.store_get_canonical_head db;
  new_head ← competing_head db;
  db' ← Store.persist_header hash_of db new_head;
  let server2 := {| LES.headerdb := db';
                    LES._head_number := LES._head_number server1 |} in
  '(server3, client2) ←
    announce_and_sync server2 (Some (block_number head)) 1 client1;
  mret (new_head, server3, client1, client2).
End Tests.

End Scenario.

(** ** A concrete hash for examples

    The serialised content itself: injective, so that distinct headers have
    distinct hashes. *)
Definition content_hash (h : BlockHeader) : Hash :=
  block_number h :: difficulty h :: timestamp h :: coinbase h
    :: gas_limit h :: parent_hash h.

(** A chain of [n] headers above [parent], every one of difficulty [d]. *)
Fixpoint sample_chain (n : nat) (parent : BlockHeader) (d : Z)
  : list BlockHeader :=
  match n with
  | O => []
  | S n' =>
      let h := {| parent_hash := content_hash parent;
                  block_number := block_number parent + 1;
                  difficulty := d; timestamp := 0; coinbase := 0;
                  gas_limit := 0 |} in
      h :: sample_chain n' h d
  end.

(** A genesis header, and the chain of [n] headers of difficulty 2 above
    it. *)
Definition sample_genesis : BlockHeader :=
  {| parent_hash := []; block_number := 0; difficulty := 1; timestamp := 0;
     coinbase := 0; gas_limit := 0 |}.

Definition sample_headers (n : nat) : list BlockHeader :=
  sample_genesis :: sample_chain n sample_genesis 2.

(** The database with the blocks 0 to [n] of that chain persisted, as the
    fixture builds it. *)
Definition sample_db (n : nat) : Store.HeaderStore :=
  match Store.persist_headers content_hash Store.empty_store (sample_headers n) with
  | Ok s => s
  | Raise _ => Store.empty_store
  end.

(** An engine that fetches 20 headers per request and retries once. *)
Definition sample_cfg : Sync.Config :=
  {| Sync.cfg_max_headers_fetch := LES.max_headers_fetch;
     Sync.cfg_retry_budget := 1 |}.

(** An engine that fetches one header per request and retries once. *)
Definition sample_cfg_single : Sync.Config :=
  {| Sync.cfg_max_headers_fetch := 1; Sync.cfg_retry_budget := 1 |}.

(** A server over [sample_db n]. *)
Definition sample_server (n : nat) : LES.LESPeerServer :=
  {| LES.headerdb := sample_db n; LES._head_number := None |}.

(** The server of [sample_db 3] announcing its head, block 3. *)
Definition sample_events : list Sync.Event :=
  match snd (LES.send_announce content_hash (sample_server 3) None 0) with
  | Ok a => [(0%nat, Scenario.server_session (sample_server 3), a)]
  | Raise _ => []
  end.

(** ** Predicates on stores and chains *)

Section Predicates.
Variable hash_of : BlockHeader -> Hash.

(** The hashes [l] are a chain inside the index [E]: position [i] holds a
    header numbered [i], whose parent is the header at position [i - 1]. *)
Definition chain_ok (E : gmap Hash (BlockHeader * Z)) (l : list Hash) : Prop :=
  (forall (i : nat) k, l !! i = Some k ->
     exists h sc, E !! k = Some (h, sc) /\ block_number h = Z.of_nat i)
  /\ (forall (i : nat) k k', l !! i = Some k -> l !! S i = Some k' ->
        exists h sc, E !! k' = Some (h, sc) /\ parent_hash h = k).

(** Well-formed store: entries are filed under their own hash, every
    header but the genesis has its parent in the store one block below,
    and the canonical chain is a non-empty chain of the index. *)
Record store_wf (s : Store.HeaderStore) : Prop := {
  wf_keys : forall k h sc,
    Store.entries s !! k = Some (h, sc) -> hash_of h = k;
  wf_nonneg : forall k h sc,
    Store.entries s !! k = Some (h, sc) -> 0 <= block_number h;
  wf_parent : forall k h sc,
    Store.entries s !! k = Some (h, sc) ->
    (block_number h = 0 /\ Store.canonical s !! 0%nat = Some k)
    \/ (exists p sp, Store.entries s !! parent_hash h = Some (p, sp)
                     /\ block_number h = block_number p + 1);
  wf_chain : chain_ok (Store.entries s) (Store.canonical s);
  wf_nonempty : Store.canonical s <> []
}.

(** The store with [h] filed under its hash. *)
Definition with_entry (s : Store.HeaderStore) (h : BlockHeader) (score : Z)
  : Store.HeaderStore :=
  {| Store.entries := <[hash_of h := (h, score)]> (Store.entries s);
     Store.canonical := Store.canonical s |}.

(** [h] can be put on top of a header of the store. *)
Definition extends (s : Store.HeaderStore) (h : BlockHeader) : Prop :=
  exists p sp, Store.entries s !! parent_hash h = Some (p, sp)
               /\ block_number h = block_number p + 1.

(** The linkage invariant of the canonical chain, through the store's
    interface: the canonical head is the header at its own number, every
    number from genesis to the head has a canonical header carrying that
    number, and each one above genesis names the one below as parent. *)
Definition canonical_linked (s : Store.HeaderStore) : Prop :=
  exists head,
    Store.store_get_canonical_head s = Ok head
    /\ 0 <= block_number head
    /\ Store.store_get_canonical_block_header_by_number s (block_number head)
       = Ok head
    /\ (forall n, 0 <= n <= block_number head ->
          exists h, Store.store_get_canonical_block_header_by_number s n = Ok h
                    /\ block_number h = n)
    /\ (forall n, 0 < n <= block_number head ->
          exists h p,
            Store.store_get_canonical_block_header_by_number s n = Ok h
            /\ Store.store_get_canonical_block_header_by_number s (n - 1) = Ok p
            /\ parent_hash h = hash_of p).

(** A chain of headers as a peer serves it: the genesis, then headers
    each one block above the previous one and naming it as parent, of
    positive difficulty. *)
Definition valid_chain (genesis : BlockHeader) (rest : list BlockHeader)
  : Prop :=
  block_number genesis = GENESIS_BLOCK_NUMBER
  /\ Sync.linked hash_of genesis rest = true
  /\ forallb (fun h => 0 <? difficulty h) rest = true.

(** Chain validity by position. *)
Definition numbered (l : list BlockHeader) : Prop :=
  forall (i : nat) h, l !! i = Some h -> block_number h = Z.of_nat i.

Definition parent_linked (l : list BlockHeader) : Prop :=
  forall (i : nat) a b, l !! i = Some a -> l !! S i = Some b ->
    parent_hash b = hash_of a.

Definition positive (l : list BlockHeader) : Prop :=
  forall (i : nat) h, l !! S i = Some h -> 0 < difficulty h.

(** The store that holds exactly the chain [l]: the index is built from
    the head down ([rl] is the chain reversed), each header filed with
    the total difficulty of the chain that ends at it. *)
Definition total_difficulty (rl : list BlockHeader) : Z :=
  foldr (fun h acc => acc + difficulty h) 0 rl.

Fixpoint chain_index (rl : list BlockHeader) : gmap Hash (BlockHeader * Z) :=
  match rl with
  | [] => ∅
  | h :: rl' =>
      <[hash_of h := (h, total_difficulty rl' + difficulty h)]> (chain_index rl')
  end.

Definition chain_store (l : list BlockHeader) : Store.HeaderStore :=
  {| Store.entries := chain_index (rev l);
     Store.canonical := map hash_of l |}.

End Predicates.

(** The database [db] serves the chain [l]: the canonical header at every
    position of [l] is the header [l] holds there. *)
Definition serves {DB : Type} `{LES.HeaderDB DB} (db : DB)
    (l : list BlockHeader) : Prop :=
  forall (i : nat) h, l !! i = Some h ->
    LES.get_canonical_block_header_by_number db (Z.of_nat i) = Ok h.

(** The engine state once a request has gone out. *)
Definition issued (st : Sync.EngineState) : Sync.EngineState :=
  {| Sync.store := Sync.store st;
     Sync.next_request_id := Sync.next_request_id st + 1;
     Sync.peer_heads := Sync.peer_heads st |}.

(** ** More of tests/p2p/test_lightchain.py *)
Module Harness.

(** What [handle_sub_proto_msg] receives: a command of
    [LESProtocolServer._commands] with its decoded message. *)
Inductive Received : Type :=
| RStatus
| RAnnounce (msg : LES.AnnounceMsg)
| RBlockHeaders (msg : LES.BlockHeadersMsg)
| RGetBlockHeaders (msg : LES.GetBlockHeadersMsg).

Section Helpers.
Context {DB : Type} `{LES.HeaderDB DB}.

(** [LESPeerServer.handle_sub_proto_msg]: the handler of the base class
    ([LESPeer], in [p2p.peer], not among the sources) is the parameter
    [base]; the result is the [BlockHeaders] sent, if any. *)
Definition handle_sub_proto_msg (base : Received -> Res unit)
    (self : LES.LESPeerServer (DB := DB)) (received : Received)
  : Res (option LES.BlockHeadersMsg) :=
  _ ← base received;
  match received with
  | RGetBlockHeaders msg =>
      reply ← LES.handle_get_block_headers self msg; mret (Some reply)
  | _ => mret None
  end.

(** The loop of [assert_canonical_chains_are_equal]: for each number the
    two lookups, first in [headerdb1], then the comparison. *)
Fixpoint assert_headers_equal (headerdb1 headerdb2 : DB) (numbers : list Z)
  : Res unit :=
  match numbers with
  | [] => Ok tt
  | i :: rest =>
      h1 ← LES.get_canonical_block_header_by_number headerdb1 i;
      h2 ← LES.get_canonical_block_header_by_number headerdb2 i;
      if decide (h1 = h2) then assert_headers_equal headerdb1 headerdb2 rest
      else Raise AssertionError
  end.

(** [assert_canonical_chains_are_equal(headerdb1, headerdb2, block_number)],
    [block_number] defaulting to [None]: it returns, or raises. *)
Definition assert_canonical_chains_are_equal (headerdb1 headerdb2 : DB)
    (block_number' : option Z) : Res unit :=
  number ← match block_number' with
           | Some n => Ok n
           | None =>
               head1 ← LES.get_canonical_head headerdb1;
               head2 ← LES.get_canonical_head headerdb2;
               if block_number head1 =? block_number head2
               then Ok (block_number head1)
               else Raise AssertionError
           end;
  assert_headers_equal headerdb1 headerdb2 (py_range 0 (number + 1)).
End Helpers.

End Harness.

(** ** More concrete examples *)

(** A server over [sample_db 3] whose head number was set to 5, beyond its
    database. *)
Definition sample_overreaching_server : LES.LESPeerServer :=
  {| LES.headerdb := sample_db 3; LES._head_number := Some 5 |}.

(** A database with the same genesis as [sample_db] and a different chain
    above it (difficulty 5). *)
Definition sample_fork_db (n : nat) : Store.HeaderStore :=
  match Store.persist_headers content_hash Store.empty_store
          (sample_genesis :: sample_chain n sample_genesis 5) with
  | Ok s => s
  | Raise _ => Store.empty_store
  end.

(** A base handler that accepts every message. *)
Definition sample_base (received : Harness.Received) : Res unit := Ok tt.

(** Whether the reorg scenario, run against [sample_db n], ends with the
    competing header as the canonical head of the server and of the client,
    at the height of the client's first head and with a difficulty one
    higher. *)
Definition reorg_adopted (n : nat) (cfg : Sync.Config) : bool :=
  match Scenario.test_full_header_sync_and_reorg content_hash cfg
          sample_genesis (sample_db n) with
  | Ok (new_head, server, client1, client2) =>
      match Store.store_get_canonical_head (Sync.store client1),
            Store.store_get_canonical_head (Sync.store client2),
            Store.store_get_canonical_head (LES.headerdb server) with
      | Ok h1, Ok h2, Ok hs =>
          bool_decide (h2 = new_head) && bool_decide (hs = new_head)
          && (block_number h1 =? Z.of_nat n)
          && (block_number h2 =? Z.of_nat n)
          && (difficulty h2 =? difficulty h1 + 1)
      | _, _, _ => false
      end
  | Raise _ => false
  end.
(** * Properties *)

(** ** Helper lemmas on the Python-level functions *)

Lemma py_range_empty (a b : Z) : b <= a -> py_range a b = [].
Proof.
  intros Hle. unfold py_range.
  replace (Z.to_nat (b - a)) with 0%nat by lia. reflexivity.
Qed.

Lemma py_range_elem (a b x : Z) : x ∈ py_range a b <-> a <= x < b.
Proof.
  unfold py_range. rewrite list_elem_of_fmap. split.
  - intros (i & -> & Hi). apply elem_of_seq in Hi. lia.
  - intros Hx. exists (Z.to_nat (x - a)). split; [lia |].
    apply elem_of_seq. lia.
Qed.

Lemma py_range_cons (a b : Z) : a < b -> py_range a b = a :: py_range (a + 1) b.
Proof.
  intros Hlt. unfold py_range.
  replace (Z.to_nat (b - a)) with (S (Z.to_nat (b - (a + 1)))) by lia.
  rewrite <- cons_seq. cbn [map]. f_equal; [lia |].
  rewrite <- seq_shift, map_map. apply map_ext. intros i. lia.
Qed.

Lemma tuple_of_Forall2 {A B : Type} (f : A -> Res B) (xs : list A) :
  (forall x, x ∈ xs -> exists y, f x = Ok y) ->
  exists ys, tuple_of f xs = Ok ys /\ Forall2 (fun x y => f x = Ok y) xs ys.
Proof.
  induction xs as [| x xs IH]; intros Hall.
  - exists []. split; [reflexivity | constructor].
  - destruct (Hall x) as [y Hy]; [left |].
    destruct IH as (ys & Hys & HF); [intros z Hz; apply Hall; now right |].
    exists (y :: ys). split; [| now constructor].
    cbn [tuple_of]. rewrite Hy. cbn. rewrite Hys. reflexivity.
Qed.

(** ** trinity/main.py *)

(** C10. Whatever the parsed arguments, [main] selects the Ropsten chain
    identifier and the light sync mode: both branches of each flag test
    assign the same constant. *)
Theorem main_selects_ropsten_and_light
    {ChainId SyncMode : Type} (ROPSTEN : ChainId) (SYNC_LIGHT : SyncMode)
    (args : Trinity.Args) :
  Trinity.main_selection ROPSTEN SYNC_LIGHT args = (ROPSTEN, SYNC_LIGHT).
Proof.
  unfold Trinity.main_selection, Trinity.chain_identifier, Trinity.sync_mode.
  destruct (Trinity.ropsten args), (Trinity.light args); reflexivity.
Qed.

(** ** LESPeerServer.handle_get_block_headers *)

Section ServerFacts.
Context {DB : Type} `{LES.HeaderDB DB}.
Implicit Types (self : LES.LESPeerServer (DB := DB)).

(** C8. A request anchored at a hash fails the handler's
    [assert isinstance(block_number, int)]: the handler raises
    [AssertionError] and sends no [BlockHeaders]. *)
Theorem hash_anchor_fails_assertion self (rid : Z) (h : Hash)
    (maxh skip : Z) (reverse : bool) :
  LES.handle_get_block_headers self
    (LES.get_block_headers rid (LES.BlockHash h) maxh skip reverse)
  = Raise AssertionError.
Proof. reflexivity. Qed.

(** With [reverse = true] and an integer anchor the handler reads
    [query.block], which the query does not have: it raises
    [AttributeError] and sends no [BlockHeaders], whatever the anchor and
    the database. *)
Lemma reverse_request_raises_attribute_error self (rid n maxh skip : Z) :
  LES.handle_get_block_headers self
    (LES.get_block_headers rid (LES.Number n) maxh skip true)
  = Raise (AttributeError "block").
Proof. reflexivity. Qed.

(** C9. A forward request whose integer anchor is above the server's head
    number is answered by a [BlockHeaders] with no headers and the
    request's [request_id]; nothing is raised. *)
Theorem anchor_above_head_empty_reply self (rid n maxh skip hn : Z) :
  LES.server_head_number self = Ok hn ->
  hn < n ->
  LES.handle_get_block_headers self
    (LES.get_block_headers rid (LES.Number n) maxh skip false)
  = Ok {| LES.request_id := rid; LES.headers := [];
          LES.buffer_value := 0 |}.
Proof.
  intros Hhead Hlt.
  unfold LES.handle_get_block_headers, LES.requested_block_numbers.
  cbn. rewrite Hhead. cbn.
  rewrite py_range_empty by lia. reflexivity.
Qed.

(** C6. A forward request with [skip = 0] whose integer anchor [n] is not
    above the server's head number [hn] is answered by the canonical
    headers numbered [n .. min hn (n + max_headers - 1)], one per number,
    in increasing order. *)
Theorem forward_request_canonical_range self (rid n maxh hn : Z) :
  LES.server_head_number self = Ok hn ->
  n <= hn ->
  (forall i, n <= i <= hn ->
     exists h, LES.get_canonical_block_header_by_number (LES.headerdb self) i
                 = Ok h /\ block_number h = i) ->
  exists hs,
    LES.handle_get_block_headers self
      (LES.get_block_headers rid (LES.Number n) maxh 0 false)
    = Ok {| LES.request_id := rid; LES.headers := hs;
            LES.buffer_value := 0 |}
    /\ map block_number hs = py_range n (Z.min hn (n + maxh - 1) + 1)
    /\ Forall2
         (fun i h =>
            LES.get_canonical_block_header_by_number (LES.headerdb self) i
            = Ok h)
         (py_range n (Z.min hn (n + maxh - 1) + 1)) hs.
Proof.
  intros Hhead Hle Hdb.
  unfold LES.handle_get_block_headers, LES.requested_block_numbers.
  cbn. rewrite Hhead. cbn.
  replace (Z.min (hn + 1) (n + maxh)) with (Z.min hn (n + maxh - 1) + 1) by lia.
  set (numbers := py_range n (Z.min hn (n + maxh - 1) + 1)).
  assert (Hwithin : forall i, i ∈ numbers -> n <= i <= hn).
  { intros i Hi. apply py_range_elem in Hi. lia. }
  destruct (tuple_of_Forall2
              (LES.get_canonical_block_header_by_number (LES.headerdb self))
              numbers) as (hs & Hhs & HF).
  { intros i Hi. destruct (Hdb i (Hwithin i Hi)) as (h & Hh & _). eauto. }
  exists hs. rewrite Hhs. cbn. split; [reflexivity |]. split; [| exact HF].
  clear Hhs. induction HF as [| i h is' hs' Hih _ IH]; [reflexivity |].
  cbn [map]. f_equal.
  - destruct (Hdb i) as (h' & Hh' & Hnum); [apply Hwithin; left |].
    congruence.
  - apply IH. intros j Hj. apply Hwithin. now right.
Qed.
End ServerFacts.

(** ** The Header Store *)

Section StoreFacts.
Variable hash_of : BlockHeader -> Hash.
Implicit Types (s : Store.HeaderStore) (h p : BlockHeader).
Implicit Types (E : gmap Hash (BlockHeader * Z)) (l : list Hash).

Lemma header_exists_true s k :
  Store.header_exists s k = true <-> is_Some (Store.entries s !! k).
Proof. unfold Store.header_exists. apply bool_decide_eq_true. Qed.

Lemma header_exists_false s k :
  Store.header_exists s k = false <-> Store.entries s !! k = None.
Proof.
  unfold Store.header_exists. rewrite bool_decide_eq_false.
  rewrite eq_None_not_Some. reflexivity.
Qed.

Lemma chain_ok_mono E E' l :
  (forall k v, E !! k = Some v -> E' !! k = Some v) ->
  chain_ok E l -> chain_ok E' l.
Proof.
  intros Hsub [Hnum Hlink]. split.
  - intros i k Hk. destruct (Hnum i k Hk) as (h & sc & Hh & Hn). eauto.
  - intros i k k' Hk Hk'.
    destruct (Hlink i k k' Hk Hk') as (h & sc & Hh & Hp). eauto.
Qed.

Lemma chain_ok_take E l (n : nat) : chain_ok E l -> chain_ok E (take n l).
Proof.
  intros [Hnum Hlink]. split.
  - intros i k Hk. apply lookup_take_Some in Hk as [Hk _]. eauto.
  - intros i k k' Hk Hk'.
    apply lookup_take_Some in Hk as [Hk _].
    apply lookup_take_Some in Hk' as [Hk' _]. eauto.
Qed.

Lemma chain_ok_snoc E l h sc :
  chain_ok E l ->
  E !! hash_of h = Some (h, sc) ->
  block_number h = Z.of_nat (length l) ->
  (forall k, last l = Some k -> parent_hash h = k) ->
  chain_ok E (l ++ [hash_of h]).
Proof.
  intros [Hnum Hlink] Hh Hn Hlast. split.
  - intros i k Hk. apply lookup_app_Some in Hk as [Hk | [Hge Hk]]; [eauto |].
    apply list_lookup_singleton_Some in Hk as [Hi <-].
    exists h, sc. split; [assumption |]. rewrite Hn. f_equal. lia.
  - intros i k k' Hk Hk'.
    apply lookup_app_Some in Hk' as [Hk' | [Hge Hk']].
    + rewrite lookup_app_l in Hk by (apply lookup_lt_Some in Hk'; lia). eauto.
    + apply list_lookup_singleton_Some in Hk' as [Hi <-].
      exists h, sc. split; [assumption |]. apply Hlast.
      rewrite lookup_app_l in Hk by lia.
      rewrite last_lookup. rewrite <- Hk. f_equal. lia.
Qed.

Lemma canonical_hash_Some s n k :
  Store.canonical_hash s n = Some k <->
  0 <= n /\ Store.canonical s !! Z.to_nat n = Some k.
Proof.
  unfold Store.canonical_hash. destruct (Z.ltb_spec n 0); split.
  - discriminate.
  - intros [? _]. lia.
  - auto.
  - now intros [_ ?].
Qed.

(** The chain through a header of a well-formed store is a chain of the
    index, ends at that header, has one hash per block number and starts
    at the same genesis. *)
Lemma chain_through_ok s : 
  (forall k h sc, Store.entries s !! k = Some (h, sc) -> hash_of h = k) ->
  (forall k h sc, Store.entries s !! k = Some (h, sc) -> 0 <= block_number h) ->
  (forall k h sc, Store.entries s !! k = Some (h, sc) ->
     (block_number h = 0 /\ Store.canonical s !! 0%nat = Some k)
     \/ (exists p sp, Store.entries s !! parent_hash h = Some (p, sp)
                      /\ block_number h = block_number p + 1)) ->
  chain_ok (Store.entries s) (Store.canonical s) ->
  forall (fuel : nat) h sc,
    Store.entries s !! hash_of h = Some (h, sc) ->
    (Z.to_nat (block_number h) < fuel)%nat ->
    let l := Store.chain_through hash_of fuel s h in
    chain_ok (Store.entries s) l
    /\ last l = Some (hash_of h)
    /\ length l = S (Z.to_nat (block_number h))
    /\ l !! 0%nat = Store.canonical s !! 0%nat.
Proof.
  intros Hkeys Hnonneg Hparent Hchain.
  induction fuel as [| fuel IH]; intros h sc Hh Hfuel; [lia |].
  cbn [Store.chain_through].
  destruct (decide (Store.canonical_hash s (block_number h) = Some (hash_of h)))
    as [Hcan | Hcan].
  - apply canonical_hash_Some in Hcan as [Hn Hcan].
    pose proof (lookup_lt_Some _ _ _ Hcan) as Hlen.
    cbn zeta. split; [now apply chain_ok_take |].
    split; [| split].
    + rewrite last_lookup, length_take, Nat.min_l by lia.
      cbn [Nat.pred]. rewrite lookup_take_lt by lia. exact Hcan.
    + rewrite length_take. lia.
    + rewrite lookup_take_lt by lia. reflexivity.
  - destruct (Hparent _ _ _ Hh) as [[Hzero Hgen] | (p & sp & Hp & Hnum)].
    + exfalso. apply Hcan. apply canonical_hash_Some.
      rewrite Hzero. split; [lia | exact Hgen].
    + rewrite Hp.
      pose proof (Hkeys _ _ _ Hp) as Hpk.
      pose proof (Hnonneg _ _ _ Hp) as Hp0.
      rewrite <- Hpk in Hp.
      destruct (IH p sp Hp) as (Hok & Hlast & Hlen & Hfirst); [lia |].
      set (l' := Store.chain_through hash_of fuel s p) in *.
      cbn zeta. split; [| split; [| split]].
      * eapply chain_ok_snoc; eauto.
        -- rewrite Hlen. lia.
        -- intros k Hk. congruence.
      * apply last_snoc.
      * rewrite length_app, Hlen. cbn. lia.
      * rewrite lookup_app_l by lia. exact Hfirst.
Qed.

Lemma with_entry_old s h score k v :
  Store.entries s !! hash_of h = None ->
  Store.entries s !! k = Some v ->
  Store.entries (with_entry hash_of s h score) !! k = Some v.
Proof.
  intros Hnew Hk. cbn. rewrite lookup_insert_ne; [assumption |].
  intros <-. congruence.
Qed.

Lemma with_entry_wf s h score :
  store_wf hash_of s ->
  Store.entries s !! hash_of h = None ->
  extends s h ->
  store_wf hash_of (with_entry hash_of s h score).
Proof.
  intros Hwf Hnew (p & sp & Hp & Hnum).
  assert (Hold : forall k v, Store.entries s !! k = Some v ->
                   Store.entries (with_entry hash_of s h score) !! k = Some v)
    by (intros; now apply with_entry_old).
  split.
  - intros k h0 sc. cbn. rewrite lookup_insert_Some.
    intros [[<- [= <- <-]] | [_ Hk]]; [reflexivity |].
    eapply wf_keys; eauto.
  - intros k h0 sc. cbn. rewrite lookup_insert_Some.
    intros [[<- [= <- <-]] | [_ Hk]].
    + pose proof (wf_nonneg _ _ Hwf _ _ _ Hp). lia.
    + eapply wf_nonneg; eauto.
  - intros k h0 sc. cbn [with_entry Store.entries Store.canonical].
    rewrite lookup_insert_Some.
    intros [[<- [= <- <-]] | [_ Hk]].
    + right. exists p, sp. split; [| assumption]. now apply Hold.
    + destruct (wf_parent _ _ Hwf _ _ _ Hk) as [? | (p0 & sp0 & Hp0 & Hn0)];
        [now left |].
      right. exists p0, sp0. split; [| assumption]. now apply Hold.
  - eapply chain_ok_mono; [exact Hold | apply Hwf].
  - apply Hwf.
Qed.

Lemma set_as_canonical_chain_head_wf s h sc :
  store_wf hash_of s ->
  Store.entries s !! hash_of h = Some (h, sc) ->
  store_wf hash_of (Store.set_as_canonical_chain_head hash_of s h).
Proof.
  intros Hwf Hh.
  destruct (chain_through_ok s (wf_keys _ _ Hwf) (wf_nonneg _ _ Hwf)
              (wf_parent _ _ Hwf) (wf_chain _ _ Hwf)
              (S (Z.to_nat (block_number h))) h sc Hh)
    as (Hok & Hlast & Hlen & Hfirst); [lia |].
  split; cbn [Store.set_as_canonical_chain_head Store.entries Store.canonical].
  - apply Hwf.
  - apply Hwf.
  - intros k h0 sc0 Hk. rewrite Hfirst. eapply wf_parent; eauto.
  - exact Hok.
  - intros Hnil. rewrite Hnil in Hlen. discriminate.
Qed.

Lemma head_score_wf s :
  store_wf hash_of s -> exists td, Store.head_score s = Ok td.
Proof.
  intros Hwf. unfold Store.head_score.
  destruct (last (Store.canonical s)) as [k |] eqn:Hlast.
  - rewrite last_lookup in Hlast.
    destruct (proj1 (wf_chain _ _ Hwf) _ _ Hlast) as (h & sc & Hh & _).
    unfold Store.store_get_score. rewrite Hh. eauto.
  - apply last_None in Hlast. now destruct (wf_nonempty _ _ Hwf).
Qed.

(** persist-header keeps a well-formed store well-formed, keeps what the
    store held, and leaves the header's hash present. *)
Lemma persist_header_wf s h :
  store_wf hash_of s ->
  (Store.entries s !! hash_of h = None -> extends s h) ->
  exists s', Store.persist_header hash_of s h = Ok s'
    /\ store_wf hash_of s'
    /\ (forall k v, Store.entries s !! k = Some v ->
                    Store.entries s' !! k = Some v)
    /\ (Store.entries s !! hash_of h = None ->
        exists sc, Store.entries s' !! hash_of h = Some (h, sc)).
Proof.
  intros Hwf Hext. unfold Store.persist_header.
  destruct (Store.header_exists s (hash_of h)) eqn:Hex.
  - exists s. apply header_exists_true in Hex as [v Hv].
    repeat split; auto; try apply Hwf. congruence.
  - apply header_exists_false in Hex. specialize (Hext Hex).
    destruct (Store.canonical s) as [| g rest] eqn:Hcan;
      [now destruct (wf_nonempty _ _ Hwf) |].
    pose proof Hext as (p & sp & Hp & Hnum). rewrite Hp.
    destruct (head_score_wf s Hwf) as [td Htd]. rewrite Htd. cbn.
    rewrite <- Hcan.
    change {| Store.entries := <[hash_of h := (h, sp + difficulty h)]> (Store.entries s);
              Store.canonical := Store.canonical s |}
      with (with_entry hash_of s h (sp + difficulty h)).
    pose proof (with_entry_wf s h (sp + difficulty h) Hwf Hex Hext) as Hwf1.
    assert (Hh1 : Store.entries (with_entry hash_of s h (sp + difficulty h)) !! hash_of h
                  = Some (h, sp + difficulty h))
      by (cbn; apply lookup_insert_eq).
    destruct (td <? sp + difficulty h).
    + eexists. split; [reflexivity |]. split; [| split].
      * eapply set_as_canonical_chain_head_wf; eauto.
      * intros k v Hk. now apply with_entry_old.
      * intros _. eauto.
    + eexists. split; [reflexivity |]. split; [| split].
      * exact Hwf1.
      * intros k v Hk. now apply with_entry_old.
      * intros _. eauto.
Qed.

Lemma fresh_headerdb_wf (genesis : BlockHeader) :
  block_number genesis = GENESIS_BLOCK_NUMBER ->
  store_wf hash_of (Store.fresh_headerdb hash_of genesis).
Proof.
  intros Hzero. unfold GENESIS_BLOCK_NUMBER in Hzero.
  split; cbn [Store.fresh_headerdb Store.entries Store.canonical].
  - intros k h sc [<- [= <- <-]]%lookup_singleton_Some. reflexivity.
  - intros k h sc [<- [= <- <-]]%lookup_singleton_Some. lia.
  - intros k h sc [<- [= <- <-]]%lookup_singleton_Some. now left.
  - split.
    + intros [| i] k Hk; [| discriminate]. injection Hk as <-.
      exists genesis, (difficulty genesis).
      split; [apply lookup_singleton_eq | assumption].
    + intros [| i] k k' _ Hk'; discriminate.
  - discriminate.
Qed.

(** A well-formed store satisfies the linkage invariant. *)
Lemma store_wf_canonical_linked s :
  store_wf hash_of s -> canonical_linked hash_of s.
Proof.
  intros Hwf. destruct (wf_chain _ _ Hwf) as [Hnum Hlink].
  assert (Hget : forall (i : nat) k, Store.canonical s !! i = Some k ->
            exists h, Store.store_get_canonical_block_header_by_number s
                        (Z.of_nat i) = Ok h
                      /\ block_number h = Z.of_nat i /\ hash_of h = k).
  { intros i k Hk. destruct (Hnum i k Hk) as (h & sc & Hh & Hn).
    exists h. unfold Store.store_get_canonical_block_header_by_number.
    replace (Store.canonical_hash s (Z.of_nat i)) with (Some k).
    - unfold Store.store_get_block_header_by_hash. rewrite Hh.
      split; [reflexivity |]. split; [assumption |].
      eapply wf_keys; eauto.
    - symmetry. apply canonical_hash_Some. rewrite Nat2Z.id. split; [lia | easy]. }
  destruct (last (Store.canonical s)) as [kh |] eqn:Hlast;
    [| apply last_None in Hlast; now destruct (wf_nonempty _ _ Hwf)].
  pose proof Hlast as Hlast'. rewrite last_lookup in Hlast'.
  destruct (Hget _ _ Hlast') as (head & Hhead & Hheadn & Hheadk).
  destruct (Hnum _ _ Hlast') as (head' & sc & Hh' & _).
  assert (Hlen : Z.of_nat (length (Store.canonical s)) = block_number head + 1).
  { apply lookup_lt_Some in Hlast'. lia. }
  exists head. split; [| split; [| split; [| split]]].
  - unfold Store.store_get_canonical_head. rewrite Hlast.
    unfold Store.store_get_canonical_block_header_by_number in Hhead.
    destruct (Store.canonical_hash s _) as [k' |] eqn:Hk'; [| discriminate].
    apply canonical_hash_Some in Hk' as [_ Hk']. rewrite Nat2Z.id in Hk'.
    congruence.
  - lia.
  - rewrite Hheadn. exact Hhead.
  - intros n Hn.
    destruct (lookup_lt_is_Some_2 (Store.canonical s) (Z.to_nat n)) as [k Hk];
      [lia |].
    destruct (Hget _ _ Hk) as (h & Hh & Hhn & _).
    rewrite Z2Nat.id in Hh, Hhn by lia. eauto.
  - intros n Hn.
    destruct (lookup_lt_is_Some_2 (Store.canonical s) (Z.to_nat n)) as [k Hk];
      [lia |].
    destruct (lookup_lt_is_Some_2 (Store.canonical s) (Z.to_nat (n - 1)))
      as [k0 Hk0]; [lia |].
    destruct (Hget _ _ Hk) as (h & Hh & Hhn & Hhk).
    destruct (Hget _ _ Hk0) as (p & Hpp & Hpn & Hpk).
    rewrite Z2Nat.id in Hh, Hpp by lia.
    exists h, p. split; [assumption |]. split; [assumption |].
    replace (Z.to_nat n) with (S (Z.to_nat (n - 1))) in Hk by lia.
    destruct (Hlink _ _ _ Hk0 Hk) as (h1 & sc1 & Hh1 & Hpar).
    destruct (Hnum _ _ Hk) as (h2 & sc2 & Hh2 & _).
    assert (h1 = h).
    { unfold Store.store_get_canonical_block_header_by_number in Hh.
      destruct (Store.canonical_hash s n) as [k' |] eqn:Hk'; [| discriminate].
      apply canonical_hash_Some in Hk' as [_ Hk'].
      replace (Z.to_nat n) with (S (Z.to_nat (n - 1))) in Hk' by lia.
      assert (k' = k) by congruence. subst k'.
      unfold Store.store_get_block_header_by_hash in Hh.
      rewrite Hh1 in Hh. congruence. }
    subst h1. congruence.
Qed.

(** *** Commits are idempotent *)

Lemma persist_header_present s h :
  is_Some (Store.entries s !! hash_of h) ->
  Store.persist_header hash_of s h = Ok s.
Proof.
  intros Hin. unfold Store.persist_header.
  now rewrite (proj2 (header_exists_true s (hash_of h)) Hin).
Qed.

Lemma persist_header_grows s h s' :
  Store.persist_header hash_of s h = Ok s' ->
  (forall k, is_Some (Store.entries s !! k) -> is_Some (Store.entries s' !! k))
  /\ is_Some (Store.entries s' !! hash_of h).
Proof.
  unfold Store.persist_header.
  destruct (Store.header_exists s (hash_of h)) eqn:Hex.
  - intros [= <-]. split; [auto |]. now apply header_exists_true.
  - assert (Hins : forall v k,
              is_Some (Store.entries s !! k) ->
              is_Some (<[hash_of h := v]> (Store.entries s) !! k)).
    { intros v k Hk. rewrite lookup_insert_is_Some.
      destruct (decide (hash_of h = k)); auto. }
    destruct (Store.canonical s) as [| g rest].
    + intros [= <-]. cbn. split; [apply Hins |].
      rewrite lookup_insert_eq. eauto.
    + destruct (Store.entries s !! parent_hash h) as [[p sp] |]; [| discriminate].
      destruct (Store.head_score s) as [td | e]; [| discriminate]. cbn.
      destruct (td <? sp + difficulty h); intros [= <-]; cbn;
        (split; [apply Hins | rewrite lookup_insert_eq; eauto]).
Qed.

Lemma persist_headers_grows s batch s' :
  Store.persist_headers hash_of s batch = Ok s' ->
  (forall k, is_Some (Store.entries s !! k) -> is_Some (Store.entries s' !! k))
  /\ Forall (fun h => is_Some (Store.entries s' !! hash_of h)) batch.
Proof.
  revert s. induction batch as [| h batch IH]; intros s; cbn.
  - intros [= <-]. auto.
  - destruct (Store.persist_header hash_of s h) as [s1 | e] eqn:Hp;
      [| discriminate].
    cbn. intros Hrest.
    destruct (persist_header_grows _ _ _ Hp) as [Hmono Hh].
    destruct (IH _ Hrest) as [Hmono' Hall].
    split; [auto |]. constructor; auto.
Qed.

Lemma persist_headers_present s batch :
  Forall (fun h => is_Some (Store.entries s !! hash_of h)) batch ->
  Store.persist_headers hash_of s batch = Ok s.
Proof.
  induction 1 as [| h batch Hh _ IH]; cbn; [reflexivity |].
  rewrite persist_header_present by assumption. exact IH.
Qed.

(** C5. Once a batch has been committed, committing the same batch again
    succeeds and leaves the store as it is, and so does committing any
    single header of it: a header whose hash is present is skipped. *)
Theorem second_commit_is_noop s (batch : list BlockHeader) s' :
  Store.persist_headers hash_of s batch = Ok s' ->
  Store.persist_headers hash_of s' batch = Ok s'
  /\ Forall (fun h => Store.persist_header hash_of s' h = Ok s') batch.
Proof.
  intros Hfirst.
  destruct (persist_headers_grows _ _ _ Hfirst) as [_ Hall].
  split; [now apply persist_headers_present |].
  eapply Forall_impl; [exact Hall |].
  intros h Hh. now apply persist_header_present.
Qed.
End StoreFacts.

(** ** The Sync Engine *)

Section EngineFacts.
Variable hash_of : BlockHeader -> Hash.
(** The hash is derived from the content: two headers with equal hash are
    equal. *)
Hypothesis hash_inj : forall a b : BlockHeader, hash_of a = hash_of b -> a = b.
Variable cfg : Sync.Config.
Implicit Types (s : Store.HeaderStore) (h p : BlockHeader).
Implicit Types (st : Sync.EngineState) (hs : list BlockHeader).

Lemma persist_header_linked s h :
  store_wf hash_of s ->
  extends s h ->
  exists s' sc, Store.persist_header hash_of s h = Ok s'
    /\ store_wf hash_of s'
    /\ Store.entries s' !! hash_of h = Some (h, sc).
Proof.
  intros Hwf Hext.
  destruct (persist_header_wf hash_of s h Hwf (fun _ => Hext))
    as (s' & Hp & Hwf' & Hmono & Hnew).
  destruct (Store.entries s !! hash_of h) as [[h0 sc0] |] eqn:Hh.
  - exists s', sc0. split; [assumption |]. split; [assumption |].
    pose proof (wf_keys _ _ Hwf _ _ _ Hh) as Hk.
    apply hash_inj in Hk. subst h0. now apply Hmono.
  - destruct (Hnew eq_refl) as [sc Hsc]. eauto.
Qed.

Lemma linked_cons prev h hs :
  Sync.linked hash_of prev (h :: hs) = true <->
  block_number h = block_number prev + 1
  /\ parent_hash h = hash_of prev
  /\ Sync.linked hash_of h hs = true.
Proof.
  cbn [Sync.linked]. rewrite !andb_true_iff, Z.eqb_eq, bool_decide_eq_true.
  tauto.
Qed.

Lemma persist_linked hs : forall s prev sc,
  store_wf hash_of s ->
  Store.entries s !! hash_of prev = Some (prev, sc) ->
  Sync.linked hash_of prev hs = true ->
  exists s', Store.persist_headers hash_of s hs = Ok s' /\ store_wf hash_of s'.
Proof.
  induction hs as [| h hs IH]; intros s prev sc Hwf Hprev Hlinked.
  - exists s. split; [reflexivity | assumption].
  - apply linked_cons in Hlinked as (Hnum & Hpar & Hrest).
    destruct (persist_header_linked s h Hwf) as (s1 & sc1 & Hp & Hwf1 & Hh1).
    { exists prev, sc. rewrite Hpar. auto. }
    destruct (IH s1 h sc1 Hwf1 Hh1 Hrest) as (s' & Hps & Hwf').
    exists s'. cbn [Store.persist_headers]. rewrite Hp. cbn. auto.
Qed.

(** A batch that passes validation commits, and the store stays
    well-formed. *)
Lemma persist_validated s hs :
  store_wf hash_of s ->
  Sync.validate_batch hash_of s hs = true ->
  exists s', Store.persist_headers hash_of s hs = Ok s' /\ store_wf hash_of s'.
Proof.
  intros Hwf Hvalid. destruct hs as [| h hs].
  - exists s. split; [reflexivity | assumption].
  - cbn [Sync.validate_batch] in Hvalid.
    apply andb_true_iff in Hvalid as [Hfirst Hrest].
    destruct (Store.header_exists s (hash_of h)) eqn:Hex.
    + apply header_exists_true in Hex as [[h0 sc0] Hh0].
      pose proof (wf_keys _ _ Hwf _ _ _ Hh0) as Hk.
      apply hash_inj in Hk. subst h0.
      cbn [Store.persist_headers].
      rewrite (persist_header_present hash_of s h) by eauto.
      cbn [mbind Res_bind].
      exact (persist_linked hs s h sc0 Hwf Hh0 Hrest).
    + destruct (Store.entries s !! parent_hash h) as [[p sp] |] eqn:Hp;
        [| discriminate].
      apply Z.eqb_eq in Hfirst.
      destruct (persist_header_linked s h Hwf) as (s1 & sc1 & Hp1 & Hwf1 & Hh1).
      { exists p, sp. auto. }
      destruct (persist_linked hs s1 h sc1 Hwf1 Hh1 Hrest) as (s' & Hps & Hwf').
      exists s'. cbn [Store.persist_headers]. rewrite Hp1. cbn. auto.
Qed.

Lemma fetch_batch_store (budget : nat) (peer : Sync.Peer) st anchor count :
  Sync.store (fst (Sync.fetch_batch hash_of budget peer st anchor count)) = Sync.store st
  /\ forall hs, snd (Sync.fetch_batch hash_of budget peer st anchor count) = Some hs ->
                Sync.validate_batch hash_of (Sync.store st) hs = true.
Proof.
  revert st. induction budget as [| budget IH]; intros st;
    cbn [Sync.fetch_batch];
    destruct (Sync.request peer (Sync.next_request_id st) anchor count)
      as [hs0 |]; try destruct (Sync.validate_batch hash_of (Sync.store st) hs0) eqn:Hv;
    cbn [fst snd Sync.store];
    try (split; [reflexivity | intros hs [= <-]; assumption]);
    try (split; [reflexivity | discriminate]);
    apply (IH {| Sync.store := Sync.store st;
                 Sync.next_request_id := Sync.next_request_id st + 1;
                 Sync.peer_heads := Sync.peer_heads st |}).
Qed.

Lemma run_batches_wf (peer : Sync.Peer) (target : Z) batches : forall st,
  store_wf hash_of (Sync.store st) ->
  store_wf hash_of
    (Sync.store (fst (Sync.run_batches hash_of cfg peer target st batches))).
Proof.
  induction batches as [| [anchor count] rest IH]; intros st Hwf;
    cbn [Sync.run_batches]; [assumption |].
  destruct (fetch_batch_store (Sync.cfg_retry_budget cfg) peer st anchor count)
    as [Hstore Hvalid].
  destruct (Sync.fetch_batch hash_of (Sync.cfg_retry_budget cfg) peer st anchor count)
    as [st1 [hs |]]; cbn [fst snd] in *.
  - specialize (Hvalid hs eq_refl). rewrite <- Hstore in Hvalid, Hwf.
    destruct (persist_validated _ _ Hwf Hvalid) as (s' & Hp & Hwf').
    rewrite Hp.
    destruct (Sync.local_head_number s') as [n | e].
    + destruct (target <? n); [exact Hwf' |].
      apply IH. exact Hwf'.
    + exact Hwf'.
  - now rewrite Hstore.
Qed.

Lemma on_announce_wf (pid : nat) (peer : Sync.Peer) (a : LES.AnnounceMsg) st :
  store_wf hash_of (Sync.store st) ->
  store_wf hash_of (Sync.store (fst (Sync.on_announce hash_of cfg pid peer a st))).
Proof.
  intros Hwf. unfold Sync.on_announce.
  destruct (Store.head_score (Sync.store st)); [| assumption].
  destruct (Sync.local_head_number (Sync.store st)); [| assumption].
  match goal with |- context [if ?c then _ else _] => destruct c end;
    [assumption |].
  now apply run_batches_wf.
Qed.

Lemma run_wf (events : list Sync.Event) : forall st,
  store_wf hash_of (Sync.store st) ->
  store_wf hash_of (Sync.store (Sync.run hash_of cfg events st)).
Proof.
  unfold Sync.run.
  induction events as [| [[pid peer] a] events IH]; intros st Hwf;
    [assumption |].
  cbn [fold_left]. apply IH. now apply on_announce_wf.
Qed.

(** C1. After any sequence of syncs from a fresh client chain (whatever
    the peers announce and answer) the canonical chain is linked: every
    number from genesis to the head has a canonical header carrying that
    number, so block numbers increase strictly from genesis to head, and
    the header at [n > genesis] names the header at [n - 1] as parent. *)
Theorem canonical_chain_linked_after_syncs (genesis : BlockHeader)
    (events : list Sync.Event) :
  block_number genesis = GENESIS_BLOCK_NUMBER ->
  canonical_linked hash_of
    (Sync.store (Sync.run hash_of cfg events (Sync.initial_state hash_of genesis))).
Proof.
  intros Hgenesis. apply store_wf_canonical_linked, run_wf.
  now apply fresh_headerdb_wf.
Qed.

(** An Announce with [reorg_depth = 0] whose head number is not above the
    local head number plans the empty range: nothing is fetched and the
    store stays as it is, whatever the announced total difficulty. *)
Lemma announce_at_local_height_keeps_store (pid : nat) (peer : Sync.Peer)
    (a : LES.AnnounceMsg) st (n : Z) :
  Sync.local_head_number (Sync.store st) = Ok n ->
  LES.reorg_depth a = 0 ->
  LES.head_number a <= n ->
  Sync.store (fst (Sync.on_announce hash_of cfg pid peer a st)) = Sync.store st.
Proof.
  intros Hlocal Hdepth Hle. unfold Sync.on_announce. rewrite Hlocal.
  destruct (Store.head_score (Sync.store st)) as [td | e]; [| reflexivity].
  destruct (LES.head_td a <=? td); [reflexivity |].
  unfold Sync.plan, Sync.plan_start. rewrite Hdepth. cbn [Z.ltb Z.compare].
  replace (Z.to_nat (LES.head_number a - (n + 1) + 1)) with 0%nat by lia.
  reflexivity.
Qed.
End EngineFacts.

(** ** Stores that hold a single chain *)

Lemma content_hash_inj (a b : BlockHeader) :
  content_hash a = content_hash b -> a = b.
Proof.
  destruct a, b. unfold content_hash. cbn. intros [= -> -> -> -> -> ->].
  reflexivity.
Qed.

Section ChainFacts.
Variable hash_of : BlockHeader -> Hash.
Hypothesis hash_inj : forall a b : BlockHeader, hash_of a = hash_of b -> a = b.
Implicit Types (s : Store.HeaderStore) (h p g : BlockHeader).
Implicit Types (l rest : list BlockHeader).

Lemma linked_lookup rest : forall prev,
  Sync.linked hash_of prev rest = true ->
  forall (i : nat) a b, (prev :: rest) !! i = Some a ->
    (prev :: rest) !! S i = Some b ->
    block_number b = block_number a + 1 /\ parent_hash b = hash_of a.
Proof.
  induction rest as [| h rest IH]; intros prev Hl i a b Ha Hb.
  - destruct i; discriminate.
  - cbn [Sync.linked] in Hl.
    apply andb_true_iff in Hl as [Hl Hrest].
    apply andb_true_iff in Hl as [Hnum%Z.eqb_eq Hpar%bool_decide_eq_true].
    destruct i as [| i].
    + cbn in Ha, Hb. injection Ha as <-. injection Hb as <-. auto.
    + exact (IH h Hrest i a b Ha Hb).
Qed.

Lemma valid_chain_numbered g rest :
  valid_chain hash_of g rest -> numbered (g :: rest).
Proof.
  intros (Hg & Hl & _) i. induction i as [| i IH]; intros h Hh.
  - injection Hh as <-. exact Hg.
  - destruct (lookup_lt_is_Some_2 (g :: rest) i) as [a Ha];
      [apply lookup_lt_Some in Hh; lia |].
    destruct (linked_lookup rest g Hl i a h Ha Hh) as [Hn _].
    rewrite Hn, (IH a Ha). lia.
Qed.

Lemma valid_chain_parent_linked g rest :
  valid_chain hash_of g rest -> parent_linked hash_of (g :: rest).
Proof.
  intros (_ & Hl & _) i a b Ha Hb.
  exact (proj2 (linked_lookup rest g Hl i a b Ha Hb)).
Qed.

Lemma valid_chain_positive g rest :
  valid_chain hash_of g rest -> positive (g :: rest).
Proof.
  intros (_ & _ & Hpos) i h Hh. cbn in Hh.
  rewrite forallb_forall in Hpos.
  apply Z.ltb_lt, Hpos. apply list_elem_of_In. eapply list_elem_of_lookup_2; eauto.
Qed.

(** *** The index of a chain *)

Lemma chain_index_not_elem (rl : list BlockHeader) h :
  h ∉ rl -> chain_index hash_of rl !! hash_of h = None.
Proof.
  induction rl as [| x rl IH]; intros Hnin; [apply lookup_empty |].
  cbn [chain_index]. apply not_elem_of_cons in Hnin as [Hne Hnin].
  rewrite lookup_insert_ne; [now apply IH |].
  intros Heq. apply hash_inj in Heq. congruence.
Qed.

Lemma numbered_app l l' : numbered (l ++ l') -> numbered l.
Proof.
  intros Hn i h Hh. apply (Hn i h). now apply lookup_app_l_Some.
Qed.

Lemma numbered_not_elem l h :
  numbered l -> block_number h = Z.of_nat (length l) -> h ∉ l.
Proof.
  intros Hn Hh Hin. apply list_elem_of_lookup in Hin as [i Hi].
  pose proof (lookup_lt_Some _ _ _ Hi). specialize (Hn i h Hi). lia.
Qed.

(** The entry of the header at position [i] carries the total difficulty
    of the chain up to it. *)
Lemma chain_store_entry l : numbered l ->
  forall (i : nat) h, l !! i = Some h ->
    Store.entries (chain_store hash_of l) !! hash_of h
    = Some (h, total_difficulty (rev (take (S i) l))).
Proof.
  induction l as [| x l IH] using rev_ind; intros Hnum i h Hi;
    [discriminate |].
  unfold chain_store. cbn [Store.entries].
  rewrite rev_unit. cbn [chain_index].
  apply lookup_app_Some in Hi as [Hi | [Hge Hi]].
  - pose proof (lookup_lt_Some _ _ _ Hi) as Hlt.
    rewrite lookup_insert_ne.
    + rewrite take_app_le by lia.
      apply (IH (numbered_app _ _ Hnum) i h Hi).
    + intros Heq. apply hash_inj in Heq. subst x.
      pose proof (Hnum i h) as H1. rewrite lookup_app_l in H1 by lia.
      specialize (H1 Hi).
      pose proof (Hnum (length l) h) as H2.
      rewrite lookup_app_r, Nat.sub_diag in H2 by lia.
      specialize (H2 eq_refl). lia.
  - apply list_lookup_singleton_Some in Hi as [Hi <-].
    assert (i = length l) as -> by lia.
    rewrite lookup_insert_eq. rewrite take_ge by (rewrite length_app; cbn; lia).
    rewrite rev_unit. reflexivity.
Qed.

Lemma chain_store_canonical_hash l (i : nat) h :
  l !! i = Some h ->
  Store.canonical_hash (chain_store hash_of l) (Z.of_nat i) = Some (hash_of h).
Proof.
  intros Hi. apply canonical_hash_Some. split; [lia |].
  rewrite Nat2Z.id. cbn. rewrite list_lookup_fmap, Hi. reflexivity.
Qed.

Lemma chain_store_by_number l : numbered l ->
  forall (i : nat) h, l !! i = Some h ->
    Store.store_get_canonical_block_header_by_number (chain_store hash_of l)
      (Z.of_nat i) = Ok h.
Proof.
  intros Hnum i h Hi.
  unfold Store.store_get_canonical_block_header_by_number.
  rewrite (chain_store_canonical_hash l i h Hi).
  unfold Store.store_get_block_header_by_hash.
  now rewrite (chain_store_entry l Hnum i h Hi).
Qed.

Lemma chain_store_score l : numbered l ->
  forall (i : nat) h, l !! i = Some h ->
    Store.store_get_score (chain_store hash_of l) (hash_of h)
    = Ok (total_difficulty (rev (take (S i) l))).
Proof.
  intros Hnum i h Hi. unfold Store.store_get_score.
  now rewrite (chain_store_entry l Hnum i h Hi).
Qed.

Lemma chain_store_head l h : numbered (l ++ [h]) ->
  Store.store_get_canonical_head (chain_store hash_of (l ++ [h])) = Ok h
  /\ Store.head_score (chain_store hash_of (l ++ [h]))
     = Ok (total_difficulty (rev (l ++ [h]))).
Proof.
  intros Hnum.
  assert (Hi : (l ++ [h]) !! length l = Some h)
    by (rewrite lookup_app_r, Nat.sub_diag by lia; reflexivity).
  pose proof (chain_store_entry _ Hnum _ _ Hi) as He.
  rewrite take_ge in He by (rewrite length_app; cbn; lia).
  unfold Store.store_get_canonical_head, Store.head_score.
  cbn [chain_store Store.canonical]. rewrite map_app. cbn [map].
  rewrite last_snoc.
  unfold Store.store_get_block_header_by_hash, Store.store_get_score.
  now rewrite He.
Qed.

(** *** Persisting along a chain *)

Lemma chain_through_canonical (fuel : nat) s h :
  Store.canonical_hash s (block_number h) = Some (hash_of h) ->
  Store.chain_through hash_of (S fuel) s h
  = take (S (Z.to_nat (block_number h))) (Store.canonical s).
Proof.
  intros Hcan. cbn [Store.chain_through].
  destruct (decide (Store.canonical_hash s (block_number h) = Some (hash_of h)));
    [reflexivity | contradiction].
Qed.

Lemma chain_through_branch (fuel : nat) s h p sp :
  Store.canonical_hash s (block_number h) <> Some (hash_of h) ->
  Store.entries s !! parent_hash h = Some (p, sp) ->
  Store.chain_through hash_of (S fuel) s h
  = Store.chain_through hash_of fuel s p ++ [hash_of h].
Proof.
  intros Hcan Hp. cbn [Store.chain_through].
  destruct (decide (Store.canonical_hash s (block_number h) = Some (hash_of h)));
    [contradiction |].
  now rewrite Hp.
Qed.

(** Persisting the next header of a chain into the store of the chain
    below it gives the store of the longer chain. *)
Lemma persist_header_snoc l p h :
  numbered (l ++ [p; h]) ->
  parent_hash h = hash_of p ->
  0 < difficulty h ->
  Store.persist_header hash_of (chain_store hash_of (l ++ [p])) h
  = Ok (chain_store hash_of ((l ++ [p]) ++ [h])).
Proof.
  intros Hnum Hpar Hpos.
  assert (Hnum' : numbered ((l ++ [p]) ++ [h]))
    by (now rewrite <- app_assoc).
  pose proof (numbered_app _ _ Hnum') as Hnum1.
  assert (Hp : (l ++ [p]) !! length l = Some p)
    by (rewrite lookup_app_r, Nat.sub_diag by lia; reflexivity).
  assert (Hh : ((l ++ [p]) ++ [h]) !! length (l ++ [p]) = Some h)
    by (rewrite lookup_app_r, Nat.sub_diag by lia; reflexivity).
  pose proof (Hnum' _ _ Hh) as Hhn. rewrite length_app in Hhn. cbn in Hhn.
  pose proof (Hnum1 _ _ Hp) as Hpn.
  assert (Hnew : Store.entries (chain_store hash_of (l ++ [p])) !! hash_of h = None).
  { apply chain_index_not_elem.
    rewrite list_elem_of_In, <- in_rev, <- list_elem_of_In.
    apply numbered_not_elem; [assumption |].
    rewrite length_app. cbn. lia. }
  pose proof (chain_store_entry _ Hnum1 _ _ Hp) as Hpe.
  rewrite take_ge in Hpe by (rewrite length_app; cbn; lia).
  destruct (chain_store_head l p Hnum1) as [_ Hscore].
  unfold Store.persist_header.
  rewrite (proj2 (header_exists_false _ _) Hnew).
  cbn [chain_store Store.canonical]. rewrite map_app. cbn [map].
  destruct (map hash_of l ++ [hash_of p]) as [| k0 ks] eqn:Hcanon;
    [now destruct (map hash_of l) |].
  rewrite <- Hcanon. clear k0 ks Hcanon.
  change (map hash_of l ++ [hash_of p])
    with (map hash_of l ++ map hash_of [p]).
  rewrite <- map_app.
  change (Store.entries {| Store.entries := chain_index hash_of (rev (l ++ [p]));
                           Store.canonical := map hash_of (l ++ [p]) |})
    with (Store.entries (chain_store hash_of (l ++ [p]))).
  rewrite Hpar, Hpe.
  change {| Store.entries := chain_index hash_of (rev (l ++ [p]));
            Store.canonical := map hash_of (l ++ [p]) |}
    with (chain_store hash_of (l ++ [p])).
  rewrite Hscore. cbn [mbind Res_bind].
  replace (total_difficulty (rev (l ++ [p]))
           <? total_difficulty (rev (l ++ [p])) + difficulty h) with true
    by (symmetry; apply Z.ltb_lt; lia).
  f_equal. unfold Store.set_as_canonical_chain_head, chain_store.
  cbn [Store.entries Store.canonical].
  rewrite (rev_unit (l ++ [p]) h). cbn [chain_index]. f_equal.
  set (s' := {| Store.entries := _; Store.canonical := _ |}).
  assert (Hcanh : Store.canonical_hash s' (block_number h) <> Some (hash_of h)).
  { intros [_ Hc]%canonical_hash_Some. cbn in Hc.
    apply lookup_lt_Some in Hc. rewrite length_map, length_app in Hc.
    cbn in Hc. lia. }
  assert (Hpe' : Store.entries s' !! parent_hash h
                 = Some (p, total_difficulty (rev (l ++ [p])))).
  { subst s'. cbn [Store.entries]. rewrite lookup_insert_ne.
    - rewrite Hpar. exact Hpe.
    - intros Heq. rewrite Hpar in Heq. apply hash_inj in Heq. subst p. lia. }
  rewrite (chain_through_branch _ _ _ _ _ Hcanh Hpe').
  replace (Z.to_nat (block_number h)) with (S (length l)) by lia.
  rewrite chain_through_canonical.
  - subst s'. cbn [Store.canonical].
    rewrite take_ge by (rewrite length_map, length_app; cbn; lia).
    now rewrite !map_app.
  - apply canonical_hash_Some. split; [lia |]. subst s'. cbn [Store.canonical].
    rewrite list_lookup_fmap. rewrite Hpn, Nat2Z.id, Hp. reflexivity.
Qed.

Lemma persist_headers_chain (more : list BlockHeader) : forall pre,
  pre <> [] ->
  numbered (pre ++ more) ->
  parent_linked hash_of (pre ++ more) ->
  positive (pre ++ more) ->
  Store.persist_headers hash_of (chain_store hash_of pre) more
  = Ok (chain_store hash_of (pre ++ more)).
Proof.
  induction more as [| h more IH]; intros pre Hne Hnum Hlink Hpos.
  - now rewrite app_nil_r.
  - destruct (exists_last Hne) as (l & p & ->).
    assert (Hp : ((l ++ [p]) ++ h :: more) !! length l = Some p).
    { rewrite lookup_app_l by (rewrite length_app; cbn; lia).
      rewrite lookup_app_r, Nat.sub_diag by lia. reflexivity. }
    assert (Hh : ((l ++ [p]) ++ h :: more) !! S (length l) = Some h).
    { rewrite lookup_app_r by (rewrite length_app; cbn; lia).
      rewrite length_app. cbn.
      replace (S (length l) - (length l + 1))%nat with 0%nat by lia.
      reflexivity. }
    cbn [Store.persist_headers].
    rewrite persist_header_snoc.
    + cbn [mbind Res_bind].
      replace ((l ++ [p]) ++ h :: more) with (((l ++ [p]) ++ [h]) ++ more)
        by (now rewrite <- (app_assoc (l ++ [p]) [h] more)).
      replace ((l ++ [p]) ++ h :: more) with (((l ++ [p]) ++ [h]) ++ more)
        in Hnum, Hlink, Hpos
        by (now rewrite <- (app_assoc (l ++ [p]) [h] more)).
      apply IH; try assumption.
      now destruct (l ++ [p]).
    + replace (l ++ [p; h]) with ((l ++ [p]) ++ [h])
        by (now rewrite <- app_assoc).
      apply (numbered_app _ more).
      now rewrite <- (app_assoc (l ++ [p]) [h] more).
    + exact (Hlink _ _ _ Hp Hh).
    + exact (Hpos _ _ Hh).
Qed.

Lemma fresh_headerdb_chain_store g :
  Store.fresh_headerdb hash_of g = chain_store hash_of [g].
Proof.
  unfold Store.fresh_headerdb, chain_store. cbn. f_equal.
Qed.

Lemma persist_genesis g :
  Store.persist_header hash_of Store.empty_store g = Ok (chain_store hash_of [g]).
Proof.
  unfold Store.persist_header.
  rewrite (proj2 (header_exists_false Store.empty_store (hash_of g)))
    by apply lookup_empty.
  cbn. reflexivity.
Qed.

(** The fixture: persisting a valid chain into an empty database gives
    the store of that chain. *)
Lemma persist_headers_from_empty g rest :
  valid_chain hash_of g rest ->
  Store.persist_headers hash_of Store.empty_store (g :: rest)
  = Ok (chain_store hash_of (g :: rest)).
Proof.
  intros Hvalid. cbn [Store.persist_headers].
  rewrite persist_genesis. cbn [mbind Res_bind].
  apply (persist_headers_chain rest [g]); [discriminate | | |].
  - now apply valid_chain_numbered.
  - now apply valid_chain_parent_linked.
  - now apply valid_chain_positive.
Qed.
End ChainFacts.

(** ** The server's replies over a served chain *)

Section Replies.
Context {DB : Type} `{LES.HeaderDB DB}.

Lemma tuple_of_served (db : DB) (l : list BlockHeader) (n : nat) :
  serves db l ->
  forall a : nat, (a + n <= length l)%nat ->
    tuple_of (LES.get_canonical_block_header_by_number db)
      (py_range (Z.of_nat a) (Z.of_nat (a + n)))
    = Ok (take n (drop a l)).
Proof.
  intros Hserves. induction n as [| n IH]; intros a Hlen.
  - rewrite py_range_empty by lia. reflexivity.
  - rewrite py_range_cons by lia.
    destruct (lookup_lt_is_Some_2 l a) as [h Hh]; [lia |].
    cbn [tuple_of]. rewrite (Hserves a h Hh). cbn [mbind Res_bind].
    replace (Z.of_nat a + 1) with (Z.of_nat (S a)) by lia.
    replace (a + S n)%nat with (S a + n)%nat by lia.
    rewrite IH by lia. cbn [mbind Res_bind mret Res_ret].
    rewrite (drop_S l h a Hh). reflexivity.
Qed.

(** The reply to a forward request at an anchor inside the served chain:
    the headers from the anchor on, up to the head number and the
    requested count. *)
Lemma forward_reply (self : LES.LESPeerServer (DB := DB))
    (l : list BlockHeader) (hn rid anchor count : Z) :
  serves (LES.headerdb self) l ->
  LES.server_head_number self = Ok hn ->
  0 <= anchor <= hn + 1 ->
  hn < Z.of_nat (length l) ->
  0 <= count ->
  LES.handle_get_block_headers self
    (LES.get_block_headers rid (LES.Number anchor) count 0 false)
  = Ok {| LES.request_id := rid;
          LES.headers :=
            take (Z.to_nat (Z.min (hn + 1 - anchor) count))
                 (drop (Z.to_nat anchor) l);
          LES.buffer_value := 0 |}.
Proof.
  intros Hserves Hhead Ha Hhn Hcount.
  unfold LES.handle_get_block_headers, LES.requested_block_numbers.
  cbn. rewrite Hhead. cbn.
  pose proof (tuple_of_served (LES.headerdb self) l
                (Z.to_nat (Z.min (hn + 1 - anchor) count)) Hserves
                (Z.to_nat anchor)) as Ht.
  replace (Z.of_nat (Z.to_nat anchor)) with anchor in Ht by lia.
  replace (Z.of_nat (Z.to_nat anchor + Z.to_nat (Z.min (hn + 1 - anchor) count)))
    with (Z.min (hn + 1) (anchor + count)) in Ht by lia.
  rewrite Ht by lia. reflexivity.
Qed.
End Replies.

(** ** Syncing from a server that serves a chain *)

Section SyncFacts.
Variable hash_of : BlockHeader -> Hash.
Hypothesis hash_inj : forall a b : BlockHeader, hash_of a = hash_of b -> a = b.
Variable cfg : Sync.Config.
Implicit Types (s db : Store.HeaderStore) (h p g : BlockHeader).
Implicit Types (l pre hs chain : list BlockHeader).
Implicit Types (st : Sync.EngineState).

Lemma fetch_batch_first (budget : nat) (peer : Sync.Peer) st anchor count hs :
  Sync.request peer (Sync.next_request_id st) anchor count = Some hs ->
  Sync.validate_batch hash_of (Sync.store st) hs = true ->
  Sync.fetch_batch hash_of budget peer st anchor count = (issued st, Some hs).
Proof.
  intros Hreq Hvalid. destruct budget; cbn [Sync.fetch_batch];
    rewrite Hreq, Hvalid; reflexivity.
Qed.

Lemma request_server (self : LES.LESPeerServer) chain (hn rid anchor count : Z) :
  serves (LES.headerdb self) chain ->
  LES.server_head_number self = Ok hn ->
  0 <= anchor <= hn + 1 ->
  hn < Z.of_nat (length chain) ->
  0 <= count ->
  Sync.request (Scenario.server_session self) rid anchor count
  = Some (take (Z.to_nat (Z.min (hn + 1 - anchor) count))
               (drop (Z.to_nat anchor) chain)).
Proof.
  intros Hserves Hhead Ha Hhn Hcount.
  unfold Sync.request, Scenario.server_session.
  change {| LES.gbh_request_id := rid;
            LES.gbh_query := Sync.header_query anchor count |}
    with (LES.get_block_headers rid (LES.Number anchor) count 0 false).
  rewrite (forward_reply self chain hn rid anchor count) by assumption.
  cbn [LES.request_id LES.headers]. now rewrite Z.eqb_refl.
Qed.

Lemma linked_of_index hs : forall pre h,
  numbered (pre ++ h :: hs) ->
  parent_linked hash_of (pre ++ h :: hs) ->
  Sync.linked hash_of h hs = true.
Proof.
  induction hs as [| x hs IH]; intros pre h Hnum Hlink; [reflexivity |].
  assert (Hh : (pre ++ h :: x :: hs) !! length pre = Some h)
    by (rewrite lookup_app_r, Nat.sub_diag by lia; reflexivity).
  assert (Hx : (pre ++ h :: x :: hs) !! S (length pre) = Some x).
  { rewrite lookup_app_r by lia.
    replace (S (length pre) - length pre)%nat with 1%nat by lia. reflexivity. }
  apply linked_cons. split; [| split].
  - rewrite (Hnum _ _ Hh), (Hnum _ _ Hx). lia.
  - exact (Hlink _ _ _ Hh Hx).
  - apply (IH (pre ++ [h])); now rewrite <- app_assoc.
Qed.

(** The headers that continue the chain a store holds pass validation. *)
Lemma validate_continuation pre hs :
  pre <> [] ->
  numbered (pre ++ hs) ->
  parent_linked hash_of (pre ++ hs) ->
  Sync.validate_batch hash_of (chain_store hash_of pre) hs = true.
Proof.
  intros Hne Hnum Hlink. destruct hs as [| h hs]; [reflexivity |].
  destruct (exists_last Hne) as (l & p & ->).
  assert (Hp : ((l ++ [p]) ++ h :: hs) !! length l = Some p).
  { rewrite lookup_app_l by (rewrite length_app; cbn; lia).
    rewrite lookup_app_r, Nat.sub_diag by lia. reflexivity. }
  assert (Hh : ((l ++ [p]) ++ h :: hs) !! S (length l) = Some h).
  { rewrite lookup_app_r by (rewrite length_app; cbn; lia).
    rewrite length_app. cbn.
    replace (S (length l) - (length l + 1))%nat with 0%nat by lia.
    reflexivity. }
  assert (Hp' : (l ++ [p]) !! length l = Some p)
    by (rewrite lookup_app_r, Nat.sub_diag by lia; reflexivity).
  cbn [Sync.validate_batch].
  rewrite (Hlink _ _ _ Hp Hh).
  rewrite (chain_store_entry hash_of hash_inj (l ++ [p])
             (numbered_app _ _ Hnum) _ _ Hp').
  apply andb_true_iff. split.
  - destruct (Store.header_exists _ _); [reflexivity |].
    apply Z.eqb_eq. rewrite (Hnum _ _ Hp), (Hnum _ _ Hh). lia.
  - now apply (linked_of_index hs (l ++ [p]) h).
Qed.

Lemma numbered_take l (n : nat) : numbered l -> numbered (take n l).
Proof. intros Hn i h [Hi _]%lookup_take_Some. eauto. Qed.

Lemma parent_linked_take l (n : nat) :
  parent_linked hash_of l -> parent_linked hash_of (take n l).
Proof.
  intros Hl i a b [Ha _]%lookup_take_Some [Hb _]%lookup_take_Some. eauto.
Qed.

Lemma positive_take l (n : nat) : positive l -> positive (take n l).
Proof. intros Hp i h [Hi _]%lookup_take_Some. eauto. Qed.

Lemma total_difficulty_take_S l (k : nat) h :
  l !! k = Some h ->
  total_difficulty (rev (take (S k) l))
  = total_difficulty (rev (take k l)) + difficulty h.
Proof.
  intros Hk. rewrite (take_S_r l k h Hk), rev_unit. reflexivity.
Qed.

Lemma total_difficulty_lt l : positive l ->
  forall k t : nat, (k < t < length l)%nat ->
    total_difficulty (rev (take (S k) l)) < total_difficulty (rev (take (S t) l)).
Proof.
  intros Hpos k t. induction t as [| t IH]; intros Hkt; [lia |].
  destruct (lookup_lt_is_Some_2 l (S t)) as [h Hh]; [lia |].
  rewrite (total_difficulty_take_S l (S t) h Hh).
  pose proof (Hpos t h Hh).
  destruct (decide (k = t)) as [-> | Hne]; [lia |].
  assert (k < t < length l)%nat as Hlt by lia. specialize (IH Hlt). lia.
Qed.

(** The head of the store that holds the first [k + 1] headers of a
    chain. *)
Lemma chain_store_prefix_head chain (k : nat) h :
  numbered chain ->
  chain !! k = Some h ->
  Store.store_get_canonical_head (chain_store hash_of (take (S k) chain)) = Ok h
  /\ Store.head_score (chain_store hash_of (take (S k) chain))
     = Ok (total_difficulty (rev (take (S k) chain)))
  /\ Sync.local_head_number (chain_store hash_of (take (S k) chain))
     = Ok (Z.of_nat k).
Proof.
  intros Hnum Hk.
  pose proof (numbered_take chain (S k) Hnum) as Hnum'.
  rewrite (take_S_r chain k h Hk) in *.
  destruct (chain_store_head hash_of hash_inj _ _ Hnum') as [Hhead Hscore].
  split; [assumption |]. split; [assumption |].
  unfold Sync.local_head_number. rewrite Hhead. cbn.
  now rewrite (Hnum k h Hk).
Qed.

Lemma take_S_nonempty chain (k : nat) :
  (k < length chain)%nat -> take (S k) chain <> [].
Proof. destruct chain; cbn; [lia | discriminate]. Qed.

Lemma persist_headers_app s hs1 hs2 :
  Store.persist_headers hash_of s (hs1 ++ hs2)
  = s' ← Store.persist_headers hash_of s hs1;
    Store.persist_headers hash_of s' hs2.
Proof.
  revert s. induction hs1 as [| h hs1 IH]; intros s; [reflexivity |].
  cbn [app Store.persist_headers].
  destruct (Store.persist_header hash_of s h) as [s1 | e]; [| reflexivity].
  cbn [mbind Res_bind]. apply IH.
Qed.

(** A batch taken from the chain at [a], not above the block after the
    last one held ([j]), passes validation: it starts inside or right
    above what the store holds. *)
Lemma validate_overlap chain (a j n : nat) :
  numbered chain -> parent_linked hash_of chain ->
  (a <= S j)%nat -> (j < length chain)%nat ->
  Sync.validate_batch hash_of (chain_store hash_of (take (S j) chain))
    (take n (drop a chain)) = true.
Proof.
  intros Hnum Hlink Ha Hj.
  destruct (take n (drop a chain)) as [| h hs] eqn:Hbatch; [reflexivity |].
  assert (Hh : chain !! a = Some h).
  { assert (Hl : (take n (drop a chain)) !! 0%nat = Some h)
      by (now rewrite Hbatch).
    apply lookup_take_Some in Hl as [Hl _].
    rewrite lookup_drop, Nat.add_0_r in Hl. exact Hl. }
  cbn [Sync.validate_batch]. apply andb_true_iff. split.
  - destruct (Store.header_exists _ _) eqn:Hex; [reflexivity |].
    apply header_exists_false in Hex.
    destruct (decide (a <= j)%nat) as [Hin | Hout].
    + assert (Hh' : take (S j) chain !! a = Some h)
        by (rewrite lookup_take_lt by lia; exact Hh).
      rewrite (chain_store_entry hash_of hash_inj _ (numbered_take _ _ Hnum)
                 _ _ Hh') in Hex.
      discriminate.
    + destruct (lookup_lt_is_Some_2 chain (a - 1)) as [p Hp]; [lia |].
      assert (Hpa : parent_hash h = hash_of p).
      { apply (Hlink (a - 1)%nat); [assumption |].
        now replace (S (a - 1)) with a by lia. }
      assert (Hp' : take (S j) chain !! (a - 1)%nat = Some p)
        by (rewrite lookup_take_lt by lia; exact Hp).
      rewrite Hpa.
      rewrite (chain_store_entry hash_of hash_inj _ (numbered_take _ _ Hnum)
                 _ _ Hp').
      apply Z.eqb_eq. rewrite (Hnum _ _ Hh), (Hnum _ _ Hp). lia.
  - apply (linked_of_index hs (take a chain) h).
    + rewrite <- Hbatch, take_take_drop. now apply numbered_take.
    + rewrite <- Hbatch, take_take_drop. now apply parent_linked_take.
Qed.

(** Committing such a batch: the headers already held are skipped, the
    others extend the chain the store holds. *)
Lemma persist_overlap chain (a j n : nat) :
  numbered chain -> parent_linked hash_of chain -> positive chain ->
  (a <= S j)%nat -> (j < length chain)%nat ->
  Store.persist_headers hash_of (chain_store hash_of (take (S j) chain))
    (take n (drop a chain))
  = Ok (chain_store hash_of (take (S (Nat.max j (a + n - 1))) chain)).
Proof.
  intros Hnum Hlink Hpos Ha Hj.
  set (m := Nat.min n (S j - a)).
  assert (Hsplit : take n (drop a chain)
                   = take m (drop a chain) ++ take (n - m) (drop (a + m) chain)).
  { rewrite <- drop_drop, take_take_drop. f_equal. lia. }
  rewrite Hsplit, persist_headers_app.
  rewrite persist_headers_present.
  2:{ apply Forall_forall. intros h Hin.
      apply list_elem_of_lookup in Hin as [i Hi].
      apply lookup_take_Some in Hi as [Hi Him].
      rewrite lookup_drop in Hi.
      assert (Hi' : take (S j) chain !! (a + i)%nat = Some h)
        by (rewrite lookup_take_lt by lia; exact Hi).
      rewrite (chain_store_entry hash_of hash_inj _ (numbered_take _ _ Hnum)
                 _ _ Hi'). eauto. }
  cbn [mbind Res_bind].
  destruct (decide (n <= S j - a)%nat) as [Hle | Hgt].
  - replace (n - m)%nat with 0%nat by lia. cbn [take Store.persist_headers].
    replace (Nat.max j (a + n - 1)) with j by lia. reflexivity.
  - replace (a + m)%nat with (S j) by lia.
    rewrite (persist_headers_chain hash_of hash_inj).
    + rewrite take_take_drop.
      replace (S j + (n - m))%nat with (S (Nat.max j (a + n - 1))) by lia.
      reflexivity.
    + apply take_S_nonempty. lia.
    + rewrite take_take_drop. now apply numbered_take.
    + rewrite take_take_drop. now apply parent_linked_take.
    + rewrite take_take_drop. now apply positive_take.
Qed.

(** Fetching the range [a .. t] batch after batch from a server that
    serves [chain]: a client that holds the chain up to block [j], with
    [a] not above [j + 1], ends with the chain up to the target [t]. *)
Lemma run_range_server (self : LES.LESPeerServer) chain (t : nat) :
  numbered chain -> parent_linked hash_of chain -> positive chain ->
  serves (LES.headerdb self) chain ->
  LES.server_head_number self = Ok (Z.of_nat t) ->
  (t < length chain)%nat ->
  0 < Sync.cfg_max_headers_fetch cfg ->
  forall (fuel a j : nat) st,
    (a <= S j)%nat -> (j <= t)%nat -> (S t - a <= fuel)%nat ->
    Sync.store st = chain_store hash_of (take (S j) chain) ->
    exists st',
      Sync.run_batches hash_of cfg (Scenario.server_session self)
        (Z.of_nat t) st
        (Sync.split_range fuel (Z.of_nat a) (Z.of_nat t)
           (Sync.cfg_max_headers_fetch cfg))
      = (st', Sync.Committed)
      /\ Sync.store st' = chain_store hash_of (take (S t) chain).
Proof.
  intros Hnum Hlink Hpos Hserves Hhead Ht Hmax.
  induction fuel as [| fuel IH]; intros a j st Ha Hj Hfuel Hst.
  - exists st. split; [reflexivity |].
    rewrite Hst. do 2 f_equal. lia.
  - cbn [Sync.split_range].
    destruct (Z.ltb_spec (Z.of_nat t) (Z.of_nat a)) as [Hdone | Hmore].
    { exists st. split; [reflexivity |].
      rewrite Hst. do 2 f_equal. lia. }
    set (n := Z.min (Sync.cfg_max_headers_fetch cfg)
                (Z.of_nat t - Z.of_nat a + 1)).
    assert (Hn : 1 <= n <= Z.of_nat t - Z.of_nat a + 1) by (subst n; lia).
    set (hs := take (Z.to_nat n) (drop a chain)).
    cbn [Sync.run_batches].
    rewrite (fetch_batch_first _ _ st _ _ hs).
    + cbn [issued Sync.store]. rewrite Hst. subst hs.
      rewrite persist_overlap by (assumption || lia).
      set (j' := Nat.max j (a + Z.to_nat n - 1)).
      destruct (lookup_lt_is_Some_2 chain j') as [h Hh]; [lia |].
      destruct (chain_store_prefix_head chain _ h Hnum Hh) as (_ & _ & Hloc).
      rewrite Hloc.
      replace (Z.of_nat t <? Z.of_nat j') with false
        by (symmetry; apply Z.ltb_ge; lia).
      replace (Z.of_nat a + n) with (Z.of_nat (a + Z.to_nat n)) by lia.
      apply (IH _ j'); [lia | lia | lia | reflexivity].
    + rewrite (request_server self chain (Z.of_nat t) _ _ n Hserves Hhead)
        by lia.
      subst hs.
      replace ((Z.of_nat t + 1 - Z.of_nat a) `min` n) with n by lia.
      now rewrite Nat2Z.id.
    + rewrite Hst. subst hs. apply validate_overlap; (assumption || lia).
Qed.

(** The same for the range right above what the client holds. *)
Lemma run_batches_server (self : LES.LESPeerServer) chain (t : nat) :
  numbered chain -> parent_linked hash_of chain -> positive chain ->
  serves (LES.headerdb self) chain ->
  LES.server_head_number self = Ok (Z.of_nat t) ->
  (t < length chain)%nat ->
  0 < Sync.cfg_max_headers_fetch cfg ->
  forall (fuel k : nat) st,
    (k < t)%nat -> (t - k <= fuel)%nat ->
    Sync.store st = chain_store hash_of (take (S k) chain) ->
    exists st',
      Sync.run_batches hash_of cfg (Scenario.server_session self)
        (Z.of_nat t) st
        (Sync.split_range fuel (Z.of_nat k + 1) (Z.of_nat t)
           (Sync.cfg_max_headers_fetch cfg))
      = (st', Sync.Committed)
      /\ Sync.store st' = chain_store hash_of (take (S t) chain).
Proof.
  intros Hnum Hlink Hpos Hserves Hhead Ht Hmax fuel k st Hk Hfuel Hst.
  replace (Z.of_nat k + 1) with (Z.of_nat (S k)) by lia.
  apply (run_range_server self chain t Hnum Hlink Hpos Hserves Hhead Ht Hmax
           fuel (S k) k st); [lia | lia | lia | assumption].
Qed.

Lemma serves_chain_store chain :
  numbered chain -> serves (chain_store hash_of chain) chain.
Proof.
  intros Hnum i h Hi. cbn. now apply chain_store_by_number.
Qed.

(** One Announce of a longer chain ([reorg_depth = 0]) from a server that
    serves it. *)
Lemma on_announce_server (self : LES.LESPeerServer) chain (t k pid : nat)
    (a : LES.AnnounceMsg) st :
  numbered chain -> parent_linked hash_of chain -> positive chain ->
  serves (LES.headerdb self) chain ->
  LES.server_head_number self = Ok (Z.of_nat t) ->
  0 < Sync.cfg_max_headers_fetch cfg ->
  (k < t < length chain)%nat ->
  Sync.store st = chain_store hash_of (take (S k) chain) ->
  LES.head_number a = Z.of_nat t ->
  LES.head_td a = total_difficulty (rev (take (S t) chain)) ->
  LES.reorg_depth a = 0 ->
  exists st',
    Sync.on_announce hash_of cfg pid (Scenario.server_session self) a st
    = (st', Sync.Committed)
    /\ Sync.store st' = chain_store hash_of (take (S t) chain).
Proof.
  intros Hnum Hlink Hpos Hserves Hhead Hmax Hkt Hst Hnumber Htd Hdepth.
  unfold Sync.on_announce. rewrite Hst.
  destruct (lookup_lt_is_Some_2 chain k) as [hk Hk]; [lia |].
  destruct (chain_store_prefix_head chain k hk Hnum Hk) as (_ & Hscore & Hloc).
  rewrite Hscore, Hloc, Htd.
  pose proof (total_difficulty_lt chain Hpos k t Hkt) as Hlt.
  replace (total_difficulty (rev (take (S t) chain))
           <=? total_difficulty (rev (take (S k) chain))) with false
    by (symmetry; apply Z.leb_gt; exact Hlt).
  unfold Sync.plan, Sync.plan_start. rewrite Hdepth, Hnumber.
  cbn [Z.ltb Z.compare].
  apply (run_batches_server self chain t Hnum Hlink Hpos Hserves Hhead);
    [lia | assumption | lia | lia | reflexivity].
Qed.

Lemma send_announce_number chain (t : nat) h (hn0 : option Z) (depth : Z) :
  numbered chain ->
  chain !! t = Some h ->
  LES.send_announce hash_of
    {| LES.headerdb := chain_store hash_of chain; LES._head_number := hn0 |}
    (Some (Z.of_nat t)) depth
  = ({| LES.headerdb := chain_store hash_of chain;
        LES._head_number := Some (Z.of_nat t) |},
     Ok {| LES.head_hash := hash_of h;
           LES.head_number := Z.of_nat t;
           LES.head_td := total_difficulty (rev (take (S t) chain));
           LES.reorg_depth := depth;
           LES.params := [] |}).
Proof.
  intros Hnum Ht. unfold LES.send_announce. cbn.
  rewrite (chain_store_by_number hash_of hash_inj chain Hnum t h Ht). cbn.
  rewrite (chain_store_score hash_of hash_inj chain Hnum t h Ht). cbn.
  unfold LES.proto_send_announce. now rewrite (Hnum t h Ht).
Qed.

(** [send_announce(head_number = t)] from a server whose database holds
    [chain], and the client's sync: a client that holds the chain up to
    block [k < t] ends with the chain up to [t]. *)
Lemma announce_and_sync_chain chain (t k : nat) (hn0 : option Z) st :
  numbered chain -> parent_linked hash_of chain -> positive chain ->
  0 < Sync.cfg_max_headers_fetch cfg ->
  (k < t < length chain)%nat ->
  Sync.store st = chain_store hash_of (take (S k) chain) ->
  exists st',
    Scenario.announce_and_sync hash_of cfg
      {| LES.headerdb := chain_store hash_of chain; LES._head_number := hn0 |}
      (Some (Z.of_nat t)) 0 st
    = Ok ({| LES.headerdb := chain_store hash_of chain;
             LES._head_number := Some (Z.of_nat t) |}, st')
    /\ Sync.store st' = chain_store hash_of (take (S t) chain).
Proof.
  intros Hnum Hlink Hpos Hmax Hkt Hst.
  destruct (lookup_lt_is_Some_2 chain t) as [h Hh]; [lia |].
  unfold Scenario.announce_and_sync.
  rewrite (send_announce_number chain t h hn0 0 Hnum Hh).
  cbn [mbind Res_bind mret Res_ret].
  destruct (on_announce_server
              {| LES.headerdb := chain_store hash_of chain;
                 LES._head_number := Some (Z.of_nat t) |}
              chain t k 0%nat
              {| LES.head_hash := hash_of h;
                 LES.head_number := Z.of_nat t;
                 LES.head_td := total_difficulty (rev (take (S t) chain));
                 LES.reorg_depth := 0;
                 LES.params := [] |}
              st Hnum Hlink Hpos (serves_chain_store chain Hnum) eq_refl
              Hmax Hkt Hst eq_refl eq_refl eq_refl)
    as (st' & Hrun & Hstore).
  exists st'. rewrite Hrun. split; [reflexivity | assumption].
Qed.

Lemma persist_headers_valid l :
  l <> [] -> numbered l -> parent_linked hash_of l -> positive l ->
  Store.persist_headers hash_of Store.empty_store l
  = Ok (chain_store hash_of l).
Proof.
  intros Hne Hnum Hlink Hpos. destruct l as [| g rest]; [contradiction |].
  cbn [Store.persist_headers]. rewrite persist_genesis. cbn [mbind Res_bind].
  now apply (persist_headers_chain hash_of hash_inj rest [g]).
Qed.

Lemma chain_prefix_equal chain (k : nat) :
  numbered chain -> (k < length chain)%nat ->
  LES.canonical_chains_are_equal (chain_store hash_of (take (S k) chain))
    (chain_store hash_of chain) (Z.of_nat k).
Proof.
  intros Hnum Hk i Hi.
  destruct (lookup_lt_is_Some_2 chain (Z.to_nat i)) as [h Hh]; [lia |].
  exists h. cbn. replace i with (Z.of_nat (Z.to_nat i)) by lia. split.
  - apply chain_store_by_number; [assumption | now apply numbered_take |].
    rewrite lookup_take_lt by lia. exact Hh.
  - now apply chain_store_by_number.
Qed.

(** C2. The server holds a chain of linked headers of positive difficulty,
    numbered 0 to 100 or beyond; the client starts from a fresh chain.
    After the server announces head 10 the client's head is the server's
    header 10 and the two canonical chains are equal up to block 10;
    after the server then announces head 100 the client's head is the
    server's header 100 and the two canonical chains are equal up to
    block 100.  The engine plans the second fetch from the block above
    its head; fetching the headers 10 through 100 from the state after
    the first sync ends with the same store. *)
Theorem incremental_sync_matches_server (genesis : BlockHeader)
    (rest : list BlockHeader) :
  valid_chain hash_of genesis rest ->
  (100 <= length rest)%nat ->
  0 < Sync.cfg_max_headers_fetch cfg ->
  exists server client1 client2 header_10 header_100,
    Scenario.test_incremental_header_sync hash_of cfg genesis (genesis :: rest)
    = Ok (server, client1, client2)
    /\ LES.get_canonical_block_header_by_number (LES.headerdb server) 10
       = Ok header_10
    /\ Store.store_get_canonical_head (Sync.store client1) = Ok header_10
    /\ LES.canonical_chains_are_equal (Sync.store client1)
         (LES.headerdb server) 10
    /\ LES.get_canonical_block_header_by_number (LES.headerdb server) 100
       = Ok header_100
    /\ Store.store_get_canonical_head (Sync.store client2) = Ok header_100
    /\ LES.canonical_chains_are_equal (Sync.store client2)
         (LES.headerdb server) 100
    /\ exists client2',
         Sync.run_batches hash_of cfg (Scenario.server_session server) 100
           client1
           (Sync.split_range 91 10 100 (Sync.cfg_max_headers_fetch cfg))
         = (client2', Sync.Committed)
         /\ Sync.store client2' = Sync.store client2.
Proof.
  intros Hvalid Hlen Hmax.
  set (chain := take 101 (genesis :: rest)).
  assert (Hnum : numbered chain)
    by (apply numbered_take, (valid_chain_numbered hash_of); assumption).
  assert (Hlink : parent_linked hash_of chain)
    by (apply parent_linked_take, valid_chain_parent_linked; assumption).
  assert (Hpos : positive chain)
    by (apply positive_take, (valid_chain_positive hash_of); assumption).
  assert (Hlength : length chain = 101%nat)
    by (subst chain; rewrite length_take; cbn [length]; lia).
  assert (Hst0 : Sync.store (Sync.initial_state hash_of genesis)
                 = chain_store hash_of (take 1 chain)).
  { cbn [Sync.initial_state Sync.store].
    now rewrite fresh_headerdb_chain_store. }
  destruct (announce_and_sync_chain chain 10 0 None _ Hnum Hlink Hpos Hmax
              ltac:(lia) Hst0) as (client1 & Hrun1 & Hstore1).
  destruct (announce_and_sync_chain chain 100 10 (Some 10) client1
              Hnum Hlink Hpos Hmax ltac:(lia) Hstore1)
    as (client2 & Hrun2 & Hstore2).
  change (Z.of_nat 10) with 10 in Hrun1, Hrun2.
  change (Z.of_nat 100) with 100 in Hrun2.
  destruct (lookup_lt_is_Some_2 chain 10) as [h10 Hh10]; [lia |].
  destruct (lookup_lt_is_Some_2 chain 100) as [h100 Hh100]; [lia |].
  exists {| LES.headerdb := chain_store hash_of chain;
            LES._head_number := Some 100 |}, client1, client2, h10, h100.
  split; [| split; [| split; [| split; [| split; [| split; [| split]]]]]];
    cbn [LES.headerdb].
  - unfold Scenario.test_incremental_header_sync, Scenario.headerdb_mainnet_100.
    fold chain. rewrite (persist_headers_valid chain);
      [| intros Hnil; rewrite Hnil in Hlength; discriminate
       | assumption | assumption | assumption].
    cbn [mbind Res_bind]. rewrite Hrun1. cbn [mbind Res_bind].
    rewrite Hrun2. reflexivity.
  - exact (chain_store_by_number hash_of hash_inj chain Hnum 10 h10 Hh10).
  - rewrite Hstore1.
    exact (proj1 (chain_store_prefix_head chain 10 h10 Hnum Hh10)).
  - rewrite Hstore1.
    exact (chain_prefix_equal chain 10 Hnum ltac:(lia)).
  - exact (chain_store_by_number hash_of hash_inj chain Hnum 100 h100 Hh100).
  - rewrite Hstore2.
    exact (proj1 (chain_store_prefix_head chain 100 h100 Hnum Hh100)).
  - rewrite Hstore2.
    exact (chain_prefix_equal chain 100 Hnum ltac:(lia)).
  - rewrite Hstore2.
    apply (run_range_server
             {| LES.headerdb := chain_store hash_of chain;
                LES._head_number := Some 100 |}
             chain 100 Hnum Hlink Hpos (serves_chain_store chain Hnum)
             eq_refl ltac:(lia) Hmax 91 10 10 client1);
      [lia | lia | lia | exact Hstore1].
Qed.
End SyncFacts.

(** ** A competing head *)

Section ReorgFacts.
Variable hash_of : BlockHeader -> Hash.
Hypothesis hash_inj : forall a b : BlockHeader, hash_of a = hash_of b -> a = b.
Variable cfg : Sync.Config.
Implicit Types (s db : Store.HeaderStore) (h p q hd new : BlockHeader).
Implicit Types (l pre hs chain : list BlockHeader).
Implicit Types (st : Sync.EngineState).

















End ReorgFacts.

(** ** The theorems at concrete inputs *)

Lemma sample_chain_length (n : nat) (parent : BlockHeader) (d : Z) :
  length (sample_chain n parent d) = n.
Proof.
  revert parent. induction n as [| n IH]; intros parent; cbn; [reflexivity |].
  now rewrite IH.
Qed.

Lemma sample_chain_valid (n : nat) :
  valid_chain content_hash sample_genesis (sample_chain n sample_genesis 2).
Proof.
  split; [reflexivity |].
  generalize sample_genesis as parent. intros parent. split.
  - revert parent. induction n as [| n IH]; intros parent; [reflexivity |].
    cbn [sample_chain Sync.linked block_number parent_hash].
    rewrite Z.eqb_refl, bool_decide_eq_true_2 by reflexivity. apply IH.
  - revert parent. induction n as [| n IH]; intros parent; [reflexivity |].
    cbn [sample_chain forallb difficulty]. apply IH.
Qed.

Lemma anchor_above_head_empty_reply_witness :
  LES.server_head_number (sample_server 3) = Ok 3
  /\ 3 < 5
  /\ LES.handle_get_block_headers (sample_server 3)
       (LES.get_block_headers 7 (LES.Number 5) 4 0 false)
     = Ok {| LES.request_id := 7; LES.headers := [];
             LES.buffer_value := 0 |}.
Proof.
  assert (Hhead : LES.server_head_number (sample_server 3) = Ok 3)
    by (vm_compute; reflexivity).
  split; [exact Hhead |]. split; [lia |].
  apply (anchor_above_head_empty_reply (sample_server 3) 7 5 4 0 3 Hhead).
  lia.
Defined.

Lemma forward_request_canonical_range_witness :
  exists hs,
    LES.handle_get_block_headers (sample_server 5)
      (LES.get_block_headers 7 (LES.Number 3) 2 0 false)
    = Ok {| LES.request_id := 7; LES.headers := hs; LES.buffer_value := 0 |}
    /\ map block_number hs = py_range 3 (Z.min 5 (3 + 2 - 1) + 1)
    /\ Forall2
         (fun i h =>
            LES.get_canonical_block_header_by_number
              (LES.headerdb (sample_server 5)) i = Ok h)
         (py_range 3 (Z.min 5 (3 + 2 - 1) + 1)) hs.
Proof.
  apply (forward_request_canonical_range (sample_server 5) 7 3 2 5).
  - vm_compute. reflexivity.
  - lia.
  - intros i Hi.
    assert (i = 3 \/ i = 4 \/ i = 5) as [-> | [-> | ->]] by lia;
      eexists; (split; [vm_compute; reflexivity | reflexivity]).
Defined.

Lemma second_commit_is_noop_witness :
  Store.persist_headers content_hash (sample_db 2) (sample_headers 2)
  = Ok (sample_db 2)
  /\ Forall (fun h => Store.persist_header content_hash (sample_db 2) h
                      = Ok (sample_db 2)) (sample_headers 2).
Proof.
  apply (second_commit_is_noop content_hash Store.empty_store
           (sample_headers 2) (sample_db 2)).
  vm_compute. reflexivity.
Defined.

Lemma canonical_chain_linked_after_syncs_witness :
  canonical_linked content_hash
    (Sync.store (Sync.run content_hash sample_cfg sample_events
                   (Sync.initial_state content_hash sample_genesis))).
Proof.
  apply (canonical_chain_linked_after_syncs content_hash content_hash_inj
           sample_cfg sample_genesis sample_events).
  reflexivity.
Defined.

Lemma incremental_sync_matches_server_witness :
  exists server client1 client2 header_10 header_100,
    Scenario.test_incremental_header_sync content_hash sample_cfg sample_genesis
      (sample_headers 100)
    = Ok (server, client1, client2)
    /\ LES.get_canonical_block_header_by_number (LES.headerdb server) 10
       = Ok header_10
    /\ Store.store_get_canonical_head (Sync.store client1) = Ok header_10
    /\ LES.canonical_chains_are_equal (Sync.store client1)
         (LES.headerdb server) 10
    /\ LES.get_canonical_block_header_by_number (LES.headerdb server) 100
       = Ok header_100
    /\ Store.store_get_canonical_head (Sync.store client2) = Ok header_100
    /\ LES.canonical_chains_are_equal (Sync.store client2)
         (LES.headerdb server) 100
    /\ exists client2',
         Sync.run_batches content_hash sample_cfg
           (Scenario.server_session server) 100 client1
           (Sync.split_range 91 10 100 (Sync.cfg_max_headers_fetch sample_cfg))
         = (client2', Sync.Committed)
         /\ Sync.store client2' = Sync.store client2.
Proof.
  apply (incremental_sync_matches_server content_hash content_hash_inj
           sample_cfg sample_genesis (sample_chain 100 sample_genesis 2)).
  - apply sample_chain_valid.
  - rewrite sample_chain_length. lia.
  - vm_compute. reflexivity.
Defined.


(** The reorg scenario run on chains and batch sizes at the edges: the head
    at block 1 (the overlap is the genesis), and one header per request (the
    overlap and the competing head come in two batches).  In each run the
    client's second head is the competing header, at the height of the first,
    with a difficulty one higher. *)
Example reorg_scenario_runs :
  forallb (fun '(n, cfg) => reorg_adopted n cfg)
    [(1%nat, sample_cfg); (1%nat, sample_cfg_single);
     (2%nat, sample_cfg_single); (3%nat, sample_cfg_single);
     (3%nat, sample_cfg)] = true.
Proof. vm_compute. reflexivity. Qed.

(** The reorg scenario on a chain that is its genesis alone: the head has
    no parent, and the scenario's own step that reads it
    ([get_block_header_by_hash(head.parent_hash)]) raises before any
    competing header exists. *)
Example reorg_scenario_needs_a_parent :
  Scenario.test_full_header_sync_and_reorg content_hash sample_cfg
    sample_genesis (sample_db 0)
  = Raise HeaderNotFound.
Proof. vm_compute. reflexivity. Qed.

(** C7. The reverse request of [max_headers = 3] anchored at block 5, sent
    to a server whose chain has blocks 0 to 8: the claim expects the headers
    5, 4, 3; the handler raises [AttributeError] on [query.block] and sends
    nothing. *)
Example reverse_request_at_block_5_raises :
  LES.handle_get_block_headers (sample_server 8)
    (LES.get_block_headers 7 (LES.Number 5) 3 0 true)
  = Raise (AttributeError "block").
Proof. vm_compute. reflexivity. Qed.

(** * Further properties of the test server *)

Lemma py_range_length (a b : Z) : length (py_range a b) = Z.to_nat (b - a).
Proof. unfold py_range. now rewrite length_map, length_seq. Qed.

Lemma py_range_app (a b c : Z) :
  a <= b <= c -> py_range a c = py_range a b ++ py_range b c.
Proof.
  intros Habc. remember (Z.to_nat (b - a)) as k eqn:Hk.
  revert a Habc Hk. induction k as [| k IH]; intros a Habc Hk.
  - assert (a = b) as -> by lia. now rewrite (py_range_empty b b) by lia.
  - rewrite (py_range_cons a c), (py_range_cons a b) by lia.
    cbn [app]. f_equal. apply IH; lia.
Qed.

Lemma tuple_of_inv {A B : Type} (f : A -> Res B) (xs : list A) (ys : list B) :
  tuple_of f xs = Ok ys -> Forall2 (fun x y => f x = Ok y) xs ys.
Proof.
  revert ys. induction xs as [| x xs IH]; intros ys; cbn [tuple_of].
  - intros [= <-]. constructor.
  - destruct (f x) as [y | e] eqn:Hx; [| discriminate]. cbn.
    destruct (tuple_of f xs) as [ys' | e]; [| discriminate]. cbn.
    intros [= <-]. constructor; auto.
Qed.

Lemma tuple_of_length {A B : Type} (f : A -> Res B) (xs : list A) (ys : list B) :
  tuple_of f xs = Ok ys -> length ys = length xs.
Proof.
  intros Hys. symmetry. eapply Forall2_length, tuple_of_inv, Hys.
Qed.

Lemma tuple_of_app_eq {A B : Type} (f : A -> Res B) (xs1 xs2 : list A) :
  tuple_of f (xs1 ++ xs2)
  = ys1 ← tuple_of f xs1; ys2 ← tuple_of f xs2; mret (ys1 ++ ys2).
Proof.
  induction xs1 as [| x xs1 IH]; cbn [app tuple_of].
  - destruct (tuple_of f xs2); reflexivity.
  - destruct (f x) as [y | e]; [| reflexivity]. cbn. rewrite IH.
    destruct (tuple_of f xs1) as [ys1 | e]; [| reflexivity]. cbn.
    destruct (tuple_of f xs2); reflexivity.
Qed.

Lemma tuple_of_app {A B : Type} (f : A -> Res B) (xs1 xs2 : list A)
    (ys : list B) :
  tuple_of f (xs1 ++ xs2) = Ok ys <->
  exists ys1 ys2, tuple_of f xs1 = Ok ys1 /\ tuple_of f xs2 = Ok ys2
                  /\ ys = ys1 ++ ys2.
Proof.
  rewrite tuple_of_app_eq. split.
  - destruct (tuple_of f xs1) as [ys1 | e]; [| discriminate]. cbn.
    destruct (tuple_of f xs2) as [ys2 | e]; [| discriminate]. cbn.
    intros [= <-]. eauto.
  - intros (ys1 & ys2 & -> & -> & ->). reflexivity.
Qed.

(** The first lookup that raises ends the tuple: its exception escapes. *)
Lemma tuple_of_first_raise {A B : Type} (f : A -> Res B) (xs1 xs2 : list A)
    (x : A) (e : PyExn) :
  (forall x', x' ∈ xs1 -> exists y, f x' = Ok y) ->
  f x = Raise e ->
  tuple_of f (xs1 ++ x :: xs2) = Raise e.
Proof.
  intros Hok Hx. induction xs1 as [| x1 xs1 IH]; cbn [app tuple_of].
  - now rewrite Hx.
  - destruct (Hok x1) as [y Hy]; [left |]. rewrite Hy. cbn.
    rewrite IH; [reflexivity |]. intros x' Hx'. apply Hok. now right.
Qed.

Section MoreServerFacts.
Context {DB : Type} `{LES.HeaderDB DB}.
Implicit Types (self : LES.LESPeerServer (DB := DB)).
Implicit Types (msg : LES.GetBlockHeadersMsg) (reply : LES.BlockHeadersMsg).

(** What a successful forward reply is made of. *)
Lemma forward_reply_inv self (rid n maxh skip : Z) reply :
  LES.handle_get_block_headers self
    (LES.get_block_headers rid (LES.Number n) maxh skip false) = Ok reply <->
  exists hn hs,
    LES.server_head_number self = Ok hn
    /\ tuple_of (LES.get_canonical_block_header_by_number (LES.headerdb self))
         (py_range n (Z.min (hn + 1) (n + maxh))) = Ok hs
    /\ reply = {| LES.request_id := rid; LES.headers := hs;
                  LES.buffer_value := 0 |}.
Proof.
  unfold LES.handle_get_block_headers, LES.requested_block_numbers. cbn.
  split.
  - destruct (LES.server_head_number self) as [hn | e]; [| discriminate].
    cbn.
    destruct (tuple_of _ _) as [hs | e] eqn:Hhs; [| discriminate]. cbn.
    intros [= <-]. exists hn, hs. auto.
  - intros (hn & hs & -> & Hhs & ->). cbn. rewrite Hhs. reflexivity.
Qed.

(** X1. Every reply the handler sends carries the request's [request_id] and
    [buffer_value = 0]. *)
Theorem reply_echoes_request_id self msg reply :
  LES.handle_get_block_headers self msg = Ok reply ->
  LES.request_id reply = LES.gbh_request_id msg
  /\ LES.buffer_value reply = 0.
Proof.
  unfold LES.handle_get_block_headers.
  destruct (LES.block_number_or_hash (LES.gbh_query msg)) as [n | h];
    [| discriminate].
  cbn.
  destruct (LES.requested_block_numbers self (LES.gbh_query msg) n)
    as [numbers | e]; [| discriminate].
  cbn.
  destruct (tuple_of _ numbers) as [hs | e]; [| discriminate]. cbn.
  intros [= <-]. auto.
Qed.

(** X2. A forward reply holds exactly [min (head + 1 - n) max_headers] headers
    (none when that is negative): never more than [max_headers], never
    more than the blocks from the anchor to the head. *)
Theorem forward_reply_length self (rid n maxh skip hn : Z) reply :
  LES.server_head_number self = Ok hn ->
  LES.handle_get_block_headers self
    (LES.get_block_headers rid (LES.Number n) maxh skip false) = Ok reply ->
  Z.of_nat (length (LES.headers reply))
  = Z.max 0 (Z.min (hn + 1 - n) maxh).
Proof.
  intros Hhead (hn' & hs & Hhead' & Hhs & ->)%forward_reply_inv.
  assert (hn' = hn) as -> by congruence.
  apply tuple_of_length in Hhs. cbn [LES.headers].
  rewrite Hhs, py_range_length. lia.
Qed.

(** X3. The handler never reads [query.skip]: the reply is the same whatever
    the stride asked for. *)
Theorem skip_is_ignored self (rid maxh skip skip' : Z)
    (anchor : LES.BlockNumberOrHash) (reverse : bool) :
  LES.handle_get_block_headers self
    (LES.get_block_headers rid anchor maxh skip reverse)
  = LES.handle_get_block_headers self
      (LES.get_block_headers rid anchor maxh skip' reverse).
Proof.
  unfold LES.handle_get_block_headers, LES.requested_block_numbers.
  cbn. destruct anchor, reverse; reflexivity.
Qed.

(** X4. With [max_headers <= 0] a forward request is answered by an empty
    [BlockHeaders], wherever the anchor is. *)
Theorem no_headers_asked_empty_reply self (rid n maxh skip hn : Z) :
  LES.server_head_number self = Ok hn ->
  maxh <= 0 ->
  LES.handle_get_block_headers self
    (LES.get_block_headers rid (LES.Number n) maxh skip false)
  = Ok {| LES.request_id := rid; LES.headers := [];
          LES.buffer_value := 0 |}.
Proof.
  intros Hhead Hmax. apply forward_reply_inv. exists hn, [].
  split; [assumption |]. split; [| reflexivity].
  now rewrite py_range_empty by lia.
Qed.

(** X5. Batches compose: when a forward request for [a + b] headers is
    answered, so are the request for [a] headers at the same anchor and
    the request for [b] headers at [a] blocks above it, and the first
    reply's headers are those of the other two, in order. *)
Theorem forward_replies_compose self (rid rid1 rid2 n a b skip : Z) reply :
  0 <= a -> 0 <= b ->
  LES.handle_get_block_headers self
    (LES.get_block_headers rid (LES.Number n) (a + b) skip false) = Ok reply ->
  exists reply1 reply2,
    LES.handle_get_block_headers self
      (LES.get_block_headers rid1 (LES.Number n) a skip false) = Ok reply1
    /\ LES.handle_get_block_headers self
         (LES.get_block_headers rid2 (LES.Number (n + a)) b skip false)
       = Ok reply2
    /\ LES.headers reply = LES.headers reply1 ++ LES.headers reply2.
Proof.
  intros Ha Hb (hn & hs & Hhead & Hhs & ->)%forward_reply_inv.
  set (mid := Z.min (hn + 1) (n + a)).
  destruct (Z.le_gt_cases n (hn + 1)) as [Hin | Hout].
  - rewrite (py_range_app n mid) in Hhs by lia.
    apply tuple_of_app in Hhs as (hs1 & hs2 & Hhs1 & Hhs2 & ->).
    exists {| LES.request_id := rid1; LES.headers := hs1;
              LES.buffer_value := 0 |},
           {| LES.request_id := rid2; LES.headers := hs2;
              LES.buffer_value := 0 |}.
    split; [| split; [| reflexivity]]; apply forward_reply_inv.
    + exists hn, hs1. auto.
    + exists hn, hs2. split; [assumption |]. split; [| reflexivity].
      destruct (Z.le_gt_cases (n + a) (hn + 1)) as [Hle | Hgt].
      * replace mid with (n + a) in Hhs2 by lia.
        now replace (Z.min (hn + 1) (n + a + b))
          with (Z.min (hn + 1) (n + (a + b))) by lia.
      * rewrite py_range_empty in Hhs2 by lia.
        rewrite py_range_empty by lia. exact Hhs2.
  - rewrite py_range_empty in Hhs by lia. injection Hhs as <-.
    exists {| LES.request_id := rid1; LES.headers := [];
              LES.buffer_value := 0 |},
           {| LES.request_id := rid2; LES.headers := [];
              LES.buffer_value := 0 |}.
    split; [| split; [| reflexivity]]; apply forward_reply_inv;
      exists hn, []; (split; [assumption |]); (split; [| reflexivity]);
      now rewrite py_range_empty by lia.
Qed.

(** X6. When the canonical chain has a gap inside the requested range (the
    head number was set beyond the database, say), the exception of the
    first missing header escapes the handler and nothing is sent. *)
Theorem missing_header_escapes self (rid n maxh skip hn i : Z) (e : PyExn) :
  LES.server_head_number self = Ok hn ->
  n <= i < Z.min (hn + 1) (n + maxh) ->
  (forall j, n <= j < i ->
     exists h, LES.get_canonical_block_header_by_number (LES.headerdb self) j
               = Ok h) ->
  LES.get_canonical_block_header_by_number (LES.headerdb self) i = Raise e ->
  LES.handle_get_block_headers self
    (LES.get_block_headers rid (LES.Number n) maxh skip false) = Raise e.
Proof.
  intros Hhead Hi Hbefore Hmissing.
  unfold LES.handle_get_block_headers, LES.requested_block_numbers. cbn.
  rewrite Hhead. cbn.
  rewrite (py_range_app n i) by lia.
  rewrite (py_range_cons i) by lia.
  rewrite (tuple_of_first_raise _ _ _ i e); [reflexivity | | assumption].
  intros j Hj. apply Hbefore. now apply py_range_elem in Hj.
Qed.
End MoreServerFacts.

Section AnnounceFacts.
Context {DB : Type} `{LES.HeaderDB DB}.
Variable hash_of : BlockHeader -> Hash.
Implicit Types (self : LES.LESPeerServer (DB := DB)).

(** [send_announce(head_number = hn)] makes [hn] the server's head number,
    whatever the database holds and whether or not the announcement can
    be built; the database is untouched; without a head number the server
    is left as it was. *)
Theorem announced_head_number_sticks self (hn depth : Z) :
  LES.server_head_number (fst (LES.send_announce hash_of self (Some hn) depth))
  = Ok hn
  /\ LES.headerdb (fst (LES.send_announce hash_of self (Some hn) depth))
     = LES.headerdb self
  /\ fst (LES.send_announce hash_of self None depth) = self.
Proof. repeat split. Qed.

(** X7. Announcing a head number the canonical chain does not have raises the
    lookup's exception and sends nothing, but the head number has already
    been changed. *)
Theorem failed_announce_keeps_head_number self (hn depth : Z) (e : PyExn) :
  LES.get_canonical_block_header_by_number (LES.headerdb self) hn = Raise e ->
  LES.send_announce hash_of self (Some hn) depth
  = ({| LES.headerdb := LES.headerdb self; LES._head_number := Some hn |},
     Raise e).
Proof.
  intros Hmissing. unfold LES.send_announce. cbn. now rewrite Hmissing.
Qed.

(** X8. The announced head number outlives the call: a later [send_announce()]
    without a head number announces the same head again, not the head of
    the database, and leaves the server as the first call left it. *)
Theorem announce_without_number_repeats_head self (hn depth depth' : Z) :
  LES.send_announce hash_of
    (fst (LES.send_announce hash_of self (Some hn) depth)) None depth'
  = LES.send_announce hash_of self (Some hn) depth'.
Proof. reflexivity. Qed.

(** X9. After [send_announce(head_number = hn)] the server serves no header
    above [hn], however long its canonical chain is: every header of a
    forward reply is numbered between the anchor and [hn]. *)
Theorem replies_capped_at_announced_head self (hn depth rid n maxh skip : Z)
    (reply : LES.BlockHeadersMsg) :
  (forall i h,
     LES.get_canonical_block_header_by_number (LES.headerdb self) i = Ok h ->
     block_number h = i) ->
  LES.handle_get_block_headers
    (fst (LES.send_announce hash_of self (Some hn) depth))
    (LES.get_block_headers rid (LES.Number n) maxh skip false) = Ok reply ->
  Forall (fun h => n <= block_number h <= hn) (LES.headers reply).
Proof.
  intros Hnumbered (hn' & hs & Hhead & Hhs & ->)%forward_reply_inv.
  cbn in Hhead. injection Hhead as <-. cbn [LES.headers].
  apply tuple_of_inv in Hhs. cbn in Hhs.
  assert (Hin : forall i, i ∈ py_range n (Z.min (hn + 1) (n + maxh)) ->
                          n <= i <= hn).
  { intros i Hi%py_range_elem. lia. }
  induction Hhs as [| i h is' hs' Hih _ IH]; constructor.
  - rewrite (Hnumbered i h Hih). apply Hin. left.
  - apply IH. intros j Hj. apply Hin. now right.
Qed.

(** X10. The head a server announces can be fetched from it: when
    [send_announce(head_number = hn)] sends an Announce, a request for one
    header at [hn] is answered by the header whose hash, number and score
    were announced. *)
Theorem announced_head_is_served self (hn depth rid skip : Z)
    (a : LES.AnnounceMsg) :
  snd (LES.send_announce hash_of self (Some hn) depth) = Ok a ->
  exists h,
    LES.handle_get_block_headers
      (fst (LES.send_announce hash_of self (Some hn) depth))
      (LES.get_block_headers rid (LES.Number hn) 1 skip false)
    = Ok {| LES.request_id := rid; LES.headers := [h];
            LES.buffer_value := 0 |}
    /\ hash_of h = LES.head_hash a
    /\ block_number h = LES.head_number a
    /\ LES.get_score (LES.headerdb self) (LES.head_hash a)
       = Ok (LES.head_td a)
    /\ LES.reorg_depth a = depth.
Proof.
  intros Ha. unfold LES.send_announce in Ha. cbn in Ha.
  destruct (LES.get_canonical_block_header_by_number (LES.headerdb self) hn)
    as [h | e] eqn:Hh; [| discriminate].
  cbn in Ha.
  destruct (LES.get_score (LES.headerdb self) (hash_of h)) as [td | e] eqn:Htd;
    [| discriminate].
  cbn in Ha. injection Ha as <-. exists h.
  split; [| cbn; auto].
  apply forward_reply_inv. exists hn, [h].
  split; [reflexivity |]. split; [| reflexivity].
  replace (Z.min (hn + 1) (hn + 1)) with (hn + 1) by lia.
  rewrite py_range_cons, py_range_empty by lia.
  cbn. now rewrite Hh.
Qed.
End AnnounceFacts.

(** * The test helpers *)

Section HarnessFacts.
Context {DB : Type} `{LES.HeaderDB DB}.

Lemma assert_headers_equal_ok (db1 db2 : DB) (numbers : list Z) :
  Harness.assert_headers_equal db1 db2 numbers = Ok tt <->
  forall i, i ∈ numbers ->
    exists h, LES.get_canonical_block_header_by_number db1 i = Ok h
              /\ LES.get_canonical_block_header_by_number db2 i = Ok h.
Proof.
  induction numbers as [| i rest IH]; cbn [Harness.assert_headers_equal].
  - split; [intros _ i Hi; inversion Hi | reflexivity].
  - split.
    + destruct (LES.get_canonical_block_header_by_number db1 i) as [h1 | e]
        eqn:H1; [| discriminate]. cbn.
      destruct (LES.get_canonical_block_header_by_number db2 i) as [h2 | e]
        eqn:H2; [| discriminate]. cbn.
      destruct (decide (h1 = h2)) as [<- | Hne]; [| discriminate].
      intros Hrest j [-> | Hj]%elem_of_cons; [eauto |].
      now apply IH.
    + intros Hall. destruct (Hall i) as (h & H1 & H2); [left |].
      rewrite H1, H2. cbn. rewrite decide_True by reflexivity.
      apply IH. intros j Hj. apply Hall. now right.
Qed.

(** X11. [assert_canonical_chains_are_equal] with a block number returns exactly
    when, for every number from 0 to it, both databases have a canonical
    header and the two are equal. *)
Theorem assert_passes_iff_chains_equal (db1 db2 : DB) (n : Z) :
  Harness.assert_canonical_chains_are_equal db1 db2 (Some n) = Ok tt <->
  LES.canonical_chains_are_equal db1 db2 n.
Proof.
  unfold Harness.assert_canonical_chains_are_equal. cbn.
  rewrite assert_headers_equal_ok. unfold LES.canonical_chains_are_equal.
  split; intros Hall i Hi; apply Hall.
  - apply py_range_elem. lia.
  - apply py_range_elem in Hi. lia.
Qed.

(** X12. The assertion raises [AssertionError] at the first block number where
    the two canonical headers differ. *)
Theorem assert_raises_at_first_difference (db1 db2 : DB) (n i : Z)
    (h1 h2 : BlockHeader) :
  0 <= i <= n ->
  (forall j, 0 <= j < i ->
     exists h, LES.get_canonical_block_header_by_number db1 j = Ok h
               /\ LES.get_canonical_block_header_by_number db2 j = Ok h) ->
  LES.get_canonical_block_header_by_number db1 i = Ok h1 ->
  LES.get_canonical_block_header_by_number db2 i = Ok h2 ->
  h1 <> h2 ->
  Harness.assert_canonical_chains_are_equal db1 db2 (Some n)
  = Raise AssertionError.
Proof.
  intros Hi Hbefore H1 H2 Hne.
  unfold Harness.assert_canonical_chains_are_equal. cbn.
  rewrite (py_range_app 0 i) by lia. rewrite (py_range_cons i) by lia.
  assert (Hpre : forall j, j ∈ py_range 0 i ->
            exists h, LES.get_canonical_block_header_by_number db1 j = Ok h
                      /\ LES.get_canonical_block_header_by_number db2 j = Ok h).
  { intros j Hj%py_range_elem. now apply Hbefore. }
  induction (py_range 0 i) as [| j rest IH];
    cbn [app Harness.assert_headers_equal].
  - rewrite H1, H2. cbn. now rewrite decide_False.
  - destruct (Hpre j) as (h & Hj1 & Hj2); [left |].
    rewrite Hj1, Hj2. cbn. rewrite decide_True by reflexivity.
    apply IH. intros k Hk. apply Hpre. now right.
Qed.

(** X13. Chains that are asserted equal up to [n] are asserted equal up to any
    lower block number. *)
Theorem assert_passes_below (db1 db2 : DB) (n m : Z) :
  m <= n ->
  Harness.assert_canonical_chains_are_equal db1 db2 (Some n) = Ok tt ->
  Harness.assert_canonical_chains_are_equal db1 db2 (Some m) = Ok tt.
Proof.
  intros Hle Hn%assert_passes_iff_chains_equal.
  apply assert_passes_iff_chains_equal. intros i Hi. apply Hn. lia.
Qed.

(** X14. The assertion is symmetric in the two databases. *)
Theorem assert_symmetric (db1 db2 : DB) (n : Z) :
  Harness.assert_canonical_chains_are_equal db1 db2 (Some n) = Ok tt ->
  Harness.assert_canonical_chains_are_equal db2 db1 (Some n) = Ok tt.
Proof.
  intros H12%assert_passes_iff_chains_equal.
  apply assert_passes_iff_chains_equal. intros i Hi.
  destruct (H12 i Hi) as (h & H1 & H2). eauto.
Qed.

(** X15. The assertion chains: from [db1] equal to [db2] and [db2] equal to
    [db3] up to [n], [db1] is equal to [db3] up to [n]; this is how the
    tests compare a client with a second server after comparing it with
    the first. *)
Theorem assert_transitive (db1 db2 db3 : DB) (n : Z) :
  Harness.assert_canonical_chains_are_equal db1 db2 (Some n) = Ok tt ->
  Harness.assert_canonical_chains_are_equal db2 db3 (Some n) = Ok tt ->
  Harness.assert_canonical_chains_are_equal db1 db3 (Some n) = Ok tt.
Proof.
  intros H12%assert_passes_iff_chains_equal
         H23%assert_passes_iff_chains_equal.
  apply assert_passes_iff_chains_equal. intros i Hi.
  destruct (H12 i Hi) as (h & H1 & H2).
  destruct (H23 i Hi) as (h' & H2' & H3).
  exists h. split; [assumption |]. congruence.
Qed.

(** X16. Without a block number the assertion returns exactly when both
    databases have a canonical head, the two heads have the same block
    number, and the chains are equal up to it. *)
Theorem assert_default_compares_up_to_head (db1 db2 : DB) :
  Harness.assert_canonical_chains_are_equal db1 db2 None = Ok tt <->
  exists head1 head2,
    LES.get_canonical_head db1 = Ok head1
    /\ LES.get_canonical_head db2 = Ok head2
    /\ block_number head1 = block_number head2
    /\ LES.canonical_chains_are_equal db1 db2 (block_number head1).
Proof.
  unfold Harness.assert_canonical_chains_are_equal at 1. cbn. split.
  - destruct (LES.get_canonical_head db1) as [head1 | e]; [| discriminate].
    cbn.
    destruct (LES.get_canonical_head db2) as [head2 | e]; [| discriminate].
    cbn.
    destruct (Z.eqb_spec (block_number head1) (block_number head2))
      as [Heq | Hne]; [| discriminate].
    cbn. intros Hloop. exists head1, head2.
    repeat (split; [auto; fail |]).
    apply assert_passes_iff_chains_equal. exact Hloop.
  - intros (head1 & head2 & -> & -> & Heq & Hchains). cbn.
    rewrite (proj2 (Z.eqb_eq _ _) Heq). cbn.
    apply assert_passes_iff_chains_equal in Hchains. exact Hchains.
Qed.

(** X17. A [BlockHeaders] leaves the server only in answer to a
    [GetBlockHeaders] that the base handler accepted, and it is the
    reply of [handle_get_block_headers], carrying the request's id. *)
Theorem only_get_block_headers_is_answered (base : Harness.Received -> Res unit)
    (self : LES.LESPeerServer (DB := DB)) (received : Harness.Received)
    (reply : LES.BlockHeadersMsg) :
  Harness.handle_sub_proto_msg base self received = Ok (Some reply) ->
  exists msg,
    received = Harness.RGetBlockHeaders msg
    /\ base received = Ok tt
    /\ LES.handle_get_block_headers self msg = Ok reply
    /\ LES.request_id reply = LES.gbh_request_id msg.
Proof.
  unfold Harness.handle_sub_proto_msg.
  destruct (base received) as [[] | e]; [| discriminate]. cbn.
  destruct received as [| a | m | msg]; try discriminate.
  destruct (LES.handle_get_block_headers self msg) as [r | e] eqn:Hr;
    [| discriminate].
  cbn. intros [= <-]. exists msg.
  repeat (split; [reflexivity || assumption |]).
  now apply reply_echoes_request_id in Hr.
Qed.
End HarnessFacts.

(** * The fixture *)

Section FixtureFacts.
Variable hash_of : BlockHeader -> Hash.
Hypothesis hash_inj : forall a b : BlockHeader, hash_of a = hash_of b -> a = b.

Lemma chain_store_numbers (l : list BlockHeader) (i : Z) (h : BlockHeader) :
  numbered l ->
  Store.store_get_canonical_block_header_by_number (chain_store hash_of l) i
  = Ok h ->
  0 <= i /\ l !! Z.to_nat i = Some h.
Proof.
  intros Hnum Hget.
  unfold Store.store_get_canonical_block_header_by_number in Hget.
  destruct (Store.canonical_hash (chain_store hash_of l) i) as [k |] eqn:Hk;
    [| discriminate].
  apply canonical_hash_Some in Hk as [Hi Hk].
  cbn [chain_store Store.canonical] in Hk.
  rewrite list_lookup_fmap in Hk.
  destruct (l !! Z.to_nat i) as [h0 |] eqn:Hh0; [| discriminate].
  cbn in Hk. injection Hk as <-.
  unfold Store.store_get_block_header_by_hash in Hget.
  rewrite (chain_store_entry hash_of hash_inj l Hnum _ _ Hh0) in Hget.
  split; [assumption | congruence].
Qed.

(** X18. The fixture over a file of at least 101 linked headers of positive
    difficulty, on the header store modelled from the spec: the database
    it returns has exactly the headers numbered 0 to 100 of the file as
    its canonical chain, header 100 as its head, and no header 101. *)
Theorem fixture_holds_headers_0_to_100 (genesis : BlockHeader)
    (rest : list BlockHeader) :
  valid_chain hash_of genesis rest ->
  (100 <= length rest)%nat ->
  exists db head,
    Scenario.headerdb_mainnet_100 hash_of (genesis :: rest) = Ok db
    /\ (forall (i : nat) h, (i <= 100)%nat ->
          (genesis :: rest) !! i = Some h ->
          Store.store_get_canonical_block_header_by_number db (Z.of_nat i)
          = Ok h)
    /\ (genesis :: rest) !! 100%nat = Some head
    /\ Store.store_get_canonical_head db = Ok head
    /\ Store.store_get_canonical_block_header_by_number db 101
       = Raise HeaderNotFound.
Proof.
  intros Hvalid Hlen.
  set (chain := take 101 (genesis :: rest)).
  assert (Hnum : numbered chain)
    by (apply numbered_take, (valid_chain_numbered hash_of); assumption).
  assert (Hlink : parent_linked hash_of chain)
    by (apply parent_linked_take, valid_chain_parent_linked; assumption).
  assert (Hpos : positive chain)
    by (apply positive_take, (valid_chain_positive hash_of); assumption).
  assert (Hlength : length chain = 101%nat)
    by (subst chain; rewrite length_take; cbn [length]; lia).
  destruct (lookup_lt_is_Some_2 chain 100) as [head Hhead]; [lia |].
  exists (chain_store hash_of chain), head.
  split; [| split; [| split; [| split]]].
  - unfold Scenario.headerdb_mainnet_100. fold chain.
    apply (persist_headers_valid hash_of hash_inj); try assumption.
    intros Hnil. rewrite Hnil in Hlength. discriminate.
  - intros i h Hi Hh.
    apply (chain_store_by_number hash_of hash_inj); [assumption |].
    subst chain. rewrite lookup_take_lt by lia. exact Hh.
  - subst chain. rewrite lookup_take_lt in Hhead by lia. exact Hhead.
  - replace chain with (take 101 chain)
      by (apply take_ge; lia).
    exact (proj1 (chain_store_prefix_head hash_of hash_inj chain 100 head
                    Hnum Hhead)).
  - destruct (Store.store_get_canonical_block_header_by_number
                (chain_store hash_of chain) 101) as [h |] eqn:Hget.
    + apply chain_store_numbers in Hget as [_ Hget]; [| assumption].
      apply lookup_lt_Some in Hget. lia.
    + unfold Store.store_get_canonical_block_header_by_number in Hget.
      destruct (Store.canonical_hash (chain_store hash_of chain) 101)
        as [k |] eqn:Hk; [| congruence].
      apply canonical_hash_Some in Hk as [_ Hk].
      cbn [chain_store Store.canonical] in Hk.
      apply lookup_lt_Some in Hk. rewrite length_map in Hk. lia.
Qed.
End FixtureFacts.

(** * The further properties at concrete inputs *)

Lemma sample_db_chain_store (n : nat) :
  sample_db n = chain_store content_hash (sample_headers n).
Proof.
  unfold sample_db, sample_headers.
  now rewrite (persist_headers_from_empty content_hash content_hash_inj _ _
                 (sample_chain_valid n)).
Qed.

Lemma sample_db_numbers (n : nat) (i : Z) (h : BlockHeader) :
  LES.get_canonical_block_header_by_number (sample_db n) i = Ok h ->
  block_number h = i.
Proof.
  rewrite sample_db_chain_store. cbn. intros Hget.
  pose proof (valid_chain_numbered content_hash _ _ (sample_chain_valid n))
    as Hnum.
  apply (chain_store_numbers content_hash content_hash_inj) in Hget
    as [Hi Hget]; [| exact Hnum].
  rewrite (Hnum _ _ Hget). lia.
Qed.

Lemma reply_echoes_request_id_witness :
  exists reply,
    LES.handle_get_block_headers (sample_server 5)
      (LES.get_block_headers 7 (LES.Number 3) 2 0 false) = Ok reply
    /\ LES.request_id reply = 7
    /\ LES.buffer_value reply = 0.
Proof.
  eexists. split; [vm_compute; reflexivity |].
  apply (reply_echoes_request_id (sample_server 5)
           (LES.get_block_headers 7 (LES.Number 3) 2 0 false)).
  vm_compute. reflexivity.
Defined.

Lemma forward_reply_length_witness :
  exists reply,
    LES.handle_get_block_headers (sample_server 5)
      (LES.get_block_headers 7 (LES.Number 3) 10 0 false) = Ok reply
    /\ Z.of_nat (length (LES.headers reply)) = Z.max 0 (Z.min (5 + 1 - 3) 10).
Proof.
  eexists. split; [vm_compute; reflexivity |].
  apply (forward_reply_length (sample_server 5) 7 3 10 0 5);
    vm_compute; reflexivity.
Defined.

Lemma no_headers_asked_empty_reply_witness :
  LES.handle_get_block_headers (sample_server 5)
    (LES.get_block_headers 7 (LES.Number 3) 0 0 false)
  = Ok {| LES.request_id := 7; LES.headers := []; LES.buffer_value := 0 |}.
Proof.
  apply (no_headers_asked_empty_reply (sample_server 5) 7 3 0 0 5);
    [vm_compute; reflexivity | lia].
Defined.

Lemma forward_replies_compose_witness :
  exists reply reply1 reply2,
    LES.handle_get_block_headers (sample_server 5)
      (LES.get_block_headers 7 (LES.Number 2) (1 + 2) 0 false) = Ok reply
    /\ LES.handle_get_block_headers (sample_server 5)
         (LES.get_block_headers 8 (LES.Number 2) 1 0 false) = Ok reply1
    /\ LES.handle_get_block_headers (sample_server 5)
         (LES.get_block_headers 9 (LES.Number (2 + 1)) 2 0 false) = Ok reply2
    /\ LES.headers reply = LES.headers reply1 ++ LES.headers reply2.
Proof.
  eexists. 
  assert (Hreply : LES.handle_get_block_headers (sample_server 5)
                     (LES.get_block_headers 7 (LES.Number 2) (1 + 2) 0 false)
                   = Ok ?[reply]) by (vm_compute; reflexivity).
  destruct (forward_replies_compose (sample_server 5) 7 8 9 2 1 2 0 _
              ltac:(lia) ltac:(lia) Hreply) as (reply1 & reply2 & H1 & H2 & H3).
  exists reply1, reply2. auto.
Defined.

Lemma missing_header_escapes_witness :
  LES.handle_get_block_headers sample_overreaching_server
    (LES.get_block_headers 7 (LES.Number 2) 10 0 false)
  = Raise HeaderNotFound.
Proof.
  apply (missing_header_escapes sample_overreaching_server 7 2 10 0 5 4).
  - reflexivity.
  - lia.
  - intros j Hj. assert (j = 2 \/ j = 3) as [-> | ->] by lia;
      eexists; vm_compute; reflexivity.
  - vm_compute. reflexivity.
Defined.

Lemma failed_announce_keeps_head_number_witness :
  LES.send_announce content_hash (sample_server 3) (Some 7) 0
  = ({| LES.headerdb := sample_db 3; LES._head_number := Some 7 |},
     Raise HeaderNotFound).
Proof.
  apply (failed_announce_keeps_head_number content_hash (sample_server 3) 7 0).
  vm_compute. reflexivity.
Defined.

Lemma replies_capped_at_announced_head_witness :
  exists reply,
    LES.handle_get_block_headers
      (fst (LES.send_announce content_hash (sample_server 8) (Some 5) 0))
      (LES.get_block_headers 7 (LES.Number 3) 10 0 false) = Ok reply
    /\ Forall (fun h => 3 <= block_number h <= 5) (LES.headers reply).
Proof.
  eexists. split; [vm_compute; reflexivity |].
  apply (replies_capped_at_announced_head content_hash (sample_server 8)
           5 0 7 3 10 0).
  - intros i h. apply sample_db_numbers.
  - vm_compute. reflexivity.
Defined.

Lemma announced_head_is_served_witness :
  exists a h,
    snd (LES.send_announce content_hash (sample_server 8) (Some 5) 0) = Ok a
    /\ LES.handle_get_block_headers
         (fst (LES.send_announce content_hash (sample_server 8) (Some 5) 0))
         (LES.get_block_headers 7 (LES.Number 5) 1 0 false)
       = Ok {| LES.request_id := 7; LES.headers := [h];
               LES.buffer_value := 0 |}
    /\ content_hash h = LES.head_hash a
    /\ block_number h = LES.head_number a
    /\ LES.get_score (LES.headerdb (sample_server 8)) (LES.head_hash a)
       = Ok (LES.head_td a)
    /\ LES.reorg_depth a = 0.
Proof.
  eexists.
  assert (Ha : snd (LES.send_announce content_hash (sample_server 8) (Some 5) 0)
               = Ok ?[a]) by (vm_compute; reflexivity).
  destruct (announced_head_is_served content_hash (sample_server 8) 5 0 7 0 _ Ha)
    as (h & Hh).
  exists h. split; [exact Ha | exact Hh].
Defined.

Lemma assert_raises_at_first_difference_witness :
  Harness.assert_canonical_chains_are_equal (sample_db 3) (sample_fork_db 3)
    (Some 3)
  = Raise AssertionError.
Proof.
  eapply (assert_raises_at_first_difference (sample_db 3) (sample_fork_db 3)
            3 1).
  - lia.
  - intros j Hj. assert (j = 0) as -> by lia.
    eexists. split; vm_compute; reflexivity.
  - vm_compute. reflexivity.
  - vm_compute. reflexivity.
  - discriminate.
Defined.

Lemma assert_passes_below_witness :
  Harness.assert_canonical_chains_are_equal (sample_db 3) (sample_db 5) (Some 1)
  = Ok tt.
Proof.
  apply (assert_passes_below (sample_db 3) (sample_db 5) 3 1); [lia |].
  vm_compute. reflexivity.
Defined.

Lemma assert_symmetric_witness :
  Harness.assert_canonical_chains_are_equal (sample_db 5) (sample_db 3) (Some 3)
  = Ok tt.
Proof.
  apply (assert_symmetric (sample_db 3) (sample_db 5) 3).
  vm_compute. reflexivity.
Defined.

Lemma assert_transitive_witness :
  Harness.assert_canonical_chains_are_equal (sample_db 3) (sample_db 8) (Some 3)
  = Ok tt.
Proof.
  apply (assert_transitive (sample_db 3) (sample_db 5) (sample_db 8) 3);
    vm_compute; reflexivity.
Defined.

Lemma only_get_block_headers_is_answered_witness :
  exists reply msg,
    Harness.handle_sub_proto_msg sample_base (sample_server 5)
      (Harness.RGetBlockHeaders
         (LES.get_block_headers 7 (LES.Number 3) 2 0 false))
    = Ok (Some reply)
    /\ Harness.RGetBlockHeaders
         (LES.get_block_headers 7 (LES.Number 3) 2 0 false)
       = Harness.RGetBlockHeaders msg
    /\ sample_base
         (Harness.RGetBlockHeaders
            (LES.get_block_headers 7 (LES.Number 3) 2 0 false)) = Ok tt
    /\ LES.handle_get_block_headers (sample_server 5) msg = Ok reply
    /\ LES.request_id reply = LES.gbh_request_id msg.
Proof.
  eexists.
  assert (Hsent : Harness.handle_sub_proto_msg sample_base (sample_server 5)
                    (Harness.RGetBlockHeaders
                       (LES.get_block_headers 7 (LES.Number 3) 2 0 false))
                  = Ok (Some ?[reply])) by (vm_compute; reflexivity).
  destruct (only_get_block_headers_is_answered sample_base (sample_server 5)
              _ _ Hsent) as (msg & Hmsg).
  exists msg. split; [exact Hsent | exact Hmsg].
Defined.

Lemma fixture_holds_headers_0_to_100_witness :
  exists db head,
    Scenario.headerdb_mainnet_100 content_hash (sample_headers 120) = Ok db
    /\ (forall (i : nat) h, (i <= 100)%nat ->
          sample_headers 120 !! i = Some h ->
          Store.store_get_canonical_block_header_by_number db (Z.of_nat i)
          = Ok h)
    /\ sample_headers 120 !! 100%nat = Some head
    /\ Store.store_get_canonical_head db = Ok head
    /\ Store.store_get_canonical_block_header_by_number db 101
       = Raise HeaderNotFound.
Proof.
  apply (fixture_holds_headers_0_to_100 content_hash content_hash_inj
           sample_genesis (sample_chain 120 sample_genesis 2)).
  - apply sample_chain_valid.
  - rewrite sample_chain_length. lia.
Defined.
